(** * sequelizejs-decorators: metadata store and registrar

    A shallow embedding of [src/decorators.ts].  The decorators attach
    metadata records to class prototypes; [registerEntities] later hands that
    metadata to the mapping engine in two passes.

    JavaScript objects that the code mutates and that can be reached along
    more than one path are kept in an explicit heap and referred to by
    location: the per-prototype [__sequelize_meta__] stores, the association
    option objects handed to the association decorators, the [indexes]
    arrays of the define options (which [Entity] copies by reference from
    the options it is given), and the index objects pushed by [Index].
    Everything else is a plain value.

    Conventions of the embedding:
    - [null] and [undefined] are not told apart (the code only tests
      [== null]); a property that is present with such a value is told apart
      from a missing one, because [Object.assign] and [clean] do so;
    - a class keeps the [prototype.constructor] the language gives it, and
      member decorators are applied to instance members, so that their
      target is the class prototype;
    - the mapping engine is a third-party library: [define] files a model
      under its name, and the association-creation methods are a parameter
      of [registerEntities].  A model handle records what [define] was
      given and what [registerEntities] assigns on it; what the engine does
      inside itself with the objects it is handed (it receives the fields
      and options of a record by reference and may write to them), and the
      errors [define] may raise for a definition it rejects, are not part
      of this development, and no statement below is about them. *)

From stdpp Require Import gmap strings list fin_maps.

Local Open Scope string_scope.
Local Open Scope list_scope.

(** ** JavaScript values *)

(** A property of an object: missing, present with [null]/[undefined], or
    present with a value.  [x == null] is true in the first two cases. *)
Inductive Slot (A : Type) : Type :=
  | Absent
  | Nullish
  | Has (a : A).
Arguments Absent {A}.
Arguments Nullish {A}.
Arguments Has {A} a.

#[global] Instance Slot_eq_dec {A} `{EqDecision A} : EqDecision (Slot A).
Proof. solve_decision. Defined.

Definition isNull {A} (s : Slot A) : bool :=
  match s with Has _ => false | _ => true end.

(** Reading a property: a missing one reads as [undefined]. *)
Definition readSlot {A} (s : Slot A) : Slot A :=
  match s with Has a => Has a | _ => Nullish end.

(** What [Object.assign] does to one property: a property present in the
    later source (even with a nullish value) wins. *)
Definition assignSlot {A} (earlier later : Slot A) : Slot A :=
  match later with Absent => earlier | _ => later end.

Inductive JsVal : Type :=
  | JNull
  | JBool (b : bool)
  | JNum (z : Z)
  | JStr (s : string).

(** [createdAt] and [updatedAt] are [string | boolean] in the engine's typings. *)
Inductive StrOrBool : Type :=
  | SBool (b : bool)
  | SStr (s : string).

Definition loc := positive.

(** ** Engine option objects *)

Record DefineAttributeColumnOptions : Type := mkAttr {
  attr_type : string;
  attr_primaryKey : Slot bool;
  attr_autoIncrement : Slot bool;
  attr_rest : gmap string JsVal
}.

(** [DefineOptions]: the three properties the decorators read or write, and
    the remaining ones as an open map.  [opt_indexes] is a reference to an
    array of references to index objects: [Object.assign] copies the
    reference, so two option objects can hold the same array. *)
Record DefineOptions : Type := mkDefineOptions {
  opt_createdAt : Slot StrOrBool;
  opt_updatedAt : Slot StrOrBool;
  opt_indexes : Slot loc;
  opt_rest : gmap string JsVal
}.

Definition emptyDefineOptions : DefineOptions :=
  mkDefineOptions Absent Absent Absent ∅.

(** [Object.assign({}, earlier, later)] on define options. *)
Definition assignDefineOptions (earlier later : DefineOptions) : DefineOptions :=
  {| opt_createdAt := assignSlot (opt_createdAt earlier) (opt_createdAt later);
     opt_updatedAt := assignSlot (opt_updatedAt earlier) (opt_updatedAt later);
     opt_indexes := assignSlot (opt_indexes earlier) (opt_indexes later);
     opt_rest := opt_rest later ∪ opt_rest earlier |}.

Record AssociationOptions : Type := mkAssociationOptions {
  ao_as : Slot string;
  ao_through : Slot JsVal;
  ao_rest : gmap string JsVal
}.

Definition emptyAssociationOptions : AssociationOptions :=
  mkAssociationOptions Absent Absent ∅.

Definition set_as (key : string) (o : AssociationOptions) : AssociationOptions :=
  {| ao_as := Has key; ao_through := ao_through o; ao_rest := ao_rest o |}.

(** [DefineIndexesOptions] as [Index] builds and mutates them. *)
Record DefineIndexesOptions : Type := mkIndex {
  idx_name : Slot string;
  idx_unique : Slot bool;
  idx_fields : list string
}.

(** [IIndexOptions], the argument of [Index]. *)
Record IIndexOptions : Type := mkIIndexOptions {
  io_name : Slot string;
  io_unique : Slot bool
}.

Definition emptyIIndexOptions : IIndexOptions := mkIIndexOptions Absent Absent.

(** ** Classes and decoration targets *)

(** A class (a JavaScript [Function]): its identity, its [name], and the
    identities of its superclasses, nearest first; the prototype of a class
    is identified with the class, and its prototype chain runs through the
    prototypes of the superclasses.  [prototype.constructor] is the class
    itself, as the language sets it up. *)
Record Func : Type := mkFunc {
  fid : positive;
  fname : string;
  fsupers : list positive
}.

(** The objects [getMeta] is called on. *)
Inductive Target : Type :=
  | ProtoOf (f : Func)       (* [f.prototype]: what a member decorator receives *)
  | CreateFrom (f : Func)    (* [Object.create(f.prototype)], a fresh object *)
  | NoConstructor.           (* an object whose [constructor] is null *)

Definition constructorName (t : Target) : option string :=
  match t with
  | ProtoOf f | CreateFrom f => Some (fname f)
  | NoConstructor => None
  end.

(** The class prototypes on the target's prototype chain, nearest first.
    A fresh object made by [Object.create] has no properties of its own. *)
Definition protoChain (t : Target) : list positive :=
  match t with
  | ProtoOf f | CreateFrom f => fid f :: fsupers f
  | NoConstructor => []
  end.

(** ** Metadata records *)

Inductive AssociationMethod : Type :=
  | HAS_ONE
  | BELONGS_TO
  | HAS_MANY
  | BELONGS_TO_MANY.

(** The constant table [AssociationMethods]. *)
Definition AssociationMethods (m : AssociationMethod) : string :=
  match m with
  | HAS_ONE => "hasOne"
  | BELONGS_TO => "belongsTo"
  | HAS_MANY => "hasMany"
  | BELONGS_TO_MANY => "belongsToMany"
  end.

(** [IEntityAssociation]; [ea_association] is a reference: the record stores
    the very options object the decorator was given. *)
Record IEntityAssociation : Type := mkEntityAssociation {
  ea_target : unit → Func;
  ea_method : AssociationMethod;
  ea_association : loc
}.

(** [IEntity].  [meta_associations] keeps the order in which the properties
    were added; [objectKeys] below gives the order in which [Object.keys]
    enumerates them. *)
Record IEntity : Type := mkEntity {
  meta_name : string;
  meta_fields : gmap string DefineAttributeColumnOptions;
  meta_associations : list (string * IEntityAssociation);
  meta_options : DefineOptions
}.

(** The record [getMeta] creates when none is found. *)
Definition newEntity (n : string) : IEntity :=
  mkEntity n ∅ [] emptyDefineOptions.

(** ** The heap *)

(** Option objects and index objects are numbered by [nextLoc]; the
    [indexes] arrays are numbered apart, by [nextArray]. *)
Record Heap : Type := mkHeap {
  metaStores : gmap positive (list IEntity);   (* own [__sequelize_meta__.entities] of each class prototype *)
  assocObjs : gmap loc AssociationOptions;
  indexObjs : gmap loc DefineIndexesOptions;
  indexArrays : gmap loc (list loc);           (* the arrays held in [options.indexes] *)
  nextLoc : loc;
  nextArray : loc
}.

Definition emptyHeap : Heap := mkHeap ∅ ∅ ∅ ∅ 1%positive 1%positive.

(** Outcome of a call that may throw.  The state reached is kept in both
    cases: a JavaScript exception does not undo earlier writes. *)
Inductive Result (S A : Type) : Type :=
  | Ok (a : A) (s : S)
  | Throw (msg : string) (s : S).
Arguments Ok {S A} a s.
Arguments Throw {S A} msg s.

Definition stateOf {S A} (r : Result S A) : S :=
  match r with Ok _ s => s | Throw _ s => s end.

Definition isThrow {S A} (r : Result S A) : bool :=
  match r with Ok _ _ => false | Throw _ _ => true end.

(** The value a call returned, if it did return. *)
Definition returned {S A} (r : Result S A) : option A :=
  match r with Ok a _ => Some a | Throw _ _ => None end.

(** A reference to a metadata record: an element of a stored [entities]
    array, or a record that lives only in a discarded fresh object. *)
Inductive MetaRef : Type :=
  | Stored (holder : positive) (i : nat)
  | Detached.

(** [target.__sequelize_meta__] read through the prototype chain: the
    nearest prototype that owns a store. *)
Fixpoint findHolder (stores : gmap positive (list IEntity)) (chain : list positive)
  : option positive :=
  match chain with
  | [] => None
  | p :: rest =>
      match stores !! p with
      | Some _ => Some p
      | None => findHolder stores rest
      end
  end.

(** The loop of [getMeta]: the first record named [n], with its position. *)
Fixpoint findEntity (n : string) (es : list IEntity) : option (nat * IEntity) :=
  match es with
  | [] => None
  | e :: rest =>
      if decide (meta_name e = n) then Some (0, e)
      else prod_map S id <$> findEntity n rest
  end.

Definition setStores (h : Heap) (st : gmap positive (list IEntity)) : Heap :=
  {| metaStores := st; assocObjs := assocObjs h;
     indexObjs := indexObjs h; indexArrays := indexArrays h;
     nextLoc := nextLoc h; nextArray := nextArray h |}.

(** Look up [n] in the store owned by [p], pushing a new record when there
    is none. *)
Definition findOrPush (p : positive) (es : list IEntity) (n : string) (h : Heap)
  : Result Heap (MetaRef * IEntity) :=
  match findEntity n es with
  | Some (i, e) => Ok (Stored p i, e) h
  | None =>
      Ok (Stored p (length es), newEntity n)
         (setStores h (<[p := es ++ [newEntity n]]> (metaStores h)))
  end.

(** [getMeta]: throw when the target has no constructor; take the store
    the target sees, creating one on the target itself when there is none
    (on a fresh object it is lost with the object); return the first record
    named like the constructor, pushing a new one when there is none. *)
Definition getMeta (target : Target) (h : Heap) : Result Heap (MetaRef * IEntity) :=
  match constructorName target with
  | None => Throw "Invalid Entity. Entities should be of type function/class." h
  | Some n =>
      match findHolder (metaStores h) (protoChain target) with
      | Some p => findOrPush p (default [] (metaStores h !! p)) n h
      | None =>
          match target with
          | ProtoOf f => findOrPush (fid f) [] n h
          | _ => Ok (Detached, newEntity n) h
          end
      end
  end.

(** Writing through a metadata reference. *)
Definition updMeta (r : MetaRef) (g : IEntity → IEntity) (h : Heap) : Heap :=
  match r with
  | Stored p i => setStores h (alter (alter g i) p (metaStores h))
  | Detached => h
  end.

(** The record a reference points to. *)
Definition readMeta (r : MetaRef) (h : Heap) : option IEntity :=
  match r with
  | Stored p i => metaStores h !! p ≫= (λ es, es !! i)
  | Detached => None
  end.

(** ** A small state-and-exception monad *)

Definition bindR {S A B} (c : S → Result S A) (k : A → S → Result S B)
  : S → Result S B :=
  λ s, match c s with
       | Ok a s' => k a s'
       | Throw msg s' => Throw msg s'
       end.

Definition retR {S A} (a : A) : S → Result S A := λ s, Ok a s.

Definition throwR {S A} (msg : string) : S → Result S A := λ s, Throw msg s.

Definition modifyR {S} (g : S → S) : S → Result S unit := λ s, Ok tt (g s).

Notation "'run' x ':=' c 'in' k" := (bindR c (λ x, k))
  (at level 10, x pattern, c at level 100, k at level 200,
   format "'[v' 'run'  x  :=  c  'in' '/' k ']'").

(** ** Field setters, written out as the assignments of the source *)

Definition setName (n : string) (e : IEntity) : IEntity :=
  {| meta_name := n; meta_fields := meta_fields e;
     meta_associations := meta_associations e; meta_options := meta_options e |}.

Definition setOptions (o : DefineOptions) (e : IEntity) : IEntity :=
  {| meta_name := meta_name e; meta_fields := meta_fields e;
     meta_associations := meta_associations e; meta_options := o |}.

(** [meta.fields[key] = attribute] *)
Definition setField (key : string) (a : DefineAttributeColumnOptions) (e : IEntity) : IEntity :=
  {| meta_name := meta_name e; meta_fields := <[key := a]> (meta_fields e);
     meta_associations := meta_associations e; meta_options := meta_options e |}.

(** Assignment to a property of an object whose keys are enumerated in
    insertion order: an existing key keeps its place. *)
Fixpoint assocSet {V} (key : string) (v : V) (l : list (string * V)) : list (string * V) :=
  match l with
  | [] => [(key, v)]
  | (k, w) :: rest =>
      if decide (k = key) then (k, v) :: rest
      else (k, w) :: assocSet key v rest
  end.

Fixpoint assocGet {V} (key : string) (l : list (string * V)) : option V :=
  match l with
  | [] => None
  | (k, w) :: rest => if decide (k = key) then Some w else assocGet key rest
  end.

(** The value of a string of decimal digits. *)
Definition digitOf (a : Ascii.ascii) : option N :=
  let n := Ascii.N_of_ascii a in
  if decide (48 ≤ n ∧ n ≤ 57)%N then Some (n - 48)%N else None.

Fixpoint digitsValue (acc : N) (s : string) : option N :=
  match s with
  | EmptyString => Some acc
  | String a rest => d ← digitOf a; digitsValue (10 * acc + d)%N rest
  end.

(** Whether a property name is an array index: the canonical numeral of an
    integer below 2^32 - 1 (digits only, no leading zero). *)
Definition arrayIndex (s : string) : option N :=
  match s with
  | EmptyString => None
  | String a rest =>
      if decide (Ascii.N_of_ascii a = 48%N ∧ rest ≠ EmptyString) then None
      else n ← digitsValue 0 s; if decide (n < 2 ^ 32 - 1)%N then Some n else None
  end.

Fixpoint insertByIndex {V} (n : N) (x : string * V) (l : list (N * (string * V)))
  : list (N * (string * V)) :=
  match l with
  | [] => [(n, x)]
  | (m, y) :: rest =>
      if decide (n < m)%N then (n, x) :: (m, y) :: rest
      else (m, y) :: insertByIndex n x rest
  end.

(** The properties that are array indices, in ascending numeric order. *)
Fixpoint indexKeys {V} (l : list (string * V)) : list (N * (string * V)) :=
  match l with
  | [] => []
  | x :: rest =>
      match arrayIndex x.1 with
      | Some n => insertByIndex n x (indexKeys rest)
      | None => indexKeys rest
      end
  end.

(** The properties that are not array indices, in the order in which they
    were added. *)
Fixpoint nameKeys {V} (l : list (string * V)) : list (string * V) :=
  match l with
  | [] => []
  | x :: rest =>
      match arrayIndex x.1 with
      | Some _ => nameKeys rest
      | None => x :: nameKeys rest
      end
  end.

(** [Object.keys(obj)], with the values, for an object whose properties
    were added in the order of [l]: the array-index names first, in
    ascending numeric order, then the other names in insertion order. *)
Definition objectKeys {V} (l : list (string * V)) : list (string * V) :=
  (snd <$> indexKeys l) ++ nameKeys l.

(** [meta.associations[key] = a] *)
Definition setAssociation (key : string) (a : IEntityAssociation) (e : IEntity) : IEntity :=
  {| meta_name := meta_name e; meta_fields := meta_fields e;
     meta_associations := assocSet key a (meta_associations e);
     meta_options := meta_options e |}.

Definition setCreatedAt (v : Slot StrOrBool) (o : DefineOptions) : DefineOptions :=
  {| opt_createdAt := v; opt_updatedAt := opt_updatedAt o;
     opt_indexes := opt_indexes o; opt_rest := opt_rest o |}.

Definition setUpdatedAt (v : Slot StrOrBool) (o : DefineOptions) : DefineOptions :=
  {| opt_createdAt := opt_createdAt o; opt_updatedAt := v;
     opt_indexes := opt_indexes o; opt_rest := opt_rest o |}.

Definition setIndexes (v : Slot loc) (o : DefineOptions) : DefineOptions :=
  {| opt_createdAt := opt_createdAt o; opt_updatedAt := opt_updatedAt o;
     opt_indexes := v; opt_rest := opt_rest o |}.

(** ** Entity *)

(** The first argument of [Entity]: the code tests [typeof name] for
    ['string'] and for ['object'], so an options object may come first. *)
Inductive NameArg : Type :=
  | NameNone
  | NameStr (s : string)
  | NameObj (o : DefineOptions).

(** Lines 43-50: default to not having timestamp columns. *)
Definition defaultTimestamps (o : DefineOptions) : DefineOptions :=
  let o1 := if isNull (opt_createdAt o) then setCreatedAt (Has (SBool false)) o else o in
  if isNull (opt_updatedAt o1) then setUpdatedAt (Has (SBool false)) o1 else o1.

(** [Object.assign({}, options, meta.options)] with a possibly missing
    [options]. *)
Definition assignOver (options : option DefineOptions) (stored : DefineOptions) : DefineOptions :=
  assignDefineOptions (default emptyDefineOptions options) stored.

(** What [Entity] makes of the record it found. *)
Definition entityUpdate (name : NameArg) (options : option DefineOptions)
    (target : Func) (meta : IEntity) : IEntity :=
  let n := match name with NameStr s => s | _ => fname target end in
  let options1 :=
    match name, options with
    | NameObj o, None => Some (assignDefineOptions o (meta_options meta))
    | _, _ => options
    end in
  setOptions (defaultTimestamps (assignOver options1 (meta_options meta)))
             (setName n meta).

Definition Entity (name : NameArg) (options : option DefineOptions) (target : Func)
  : Heap → Result Heap unit :=
  run (r, _) := getMeta (ProtoOf target) in
  modifyR (updMeta r (entityUpdate name options target)).

(** ** Column decorators *)

Definition Column (attribute : DefineAttributeColumnOptions) (target : Target) (key : string)
  : Heap → Result Heap unit :=
  run (r, _) := getMeta target in
  modifyR (updMeta r (setField key attribute)).

Definition CreatedDateColumn (target : Target) (key : string) : Heap → Result Heap unit :=
  run (r, _) := getMeta target in
  modifyR (updMeta r (λ m, setOptions (setCreatedAt (Has (SStr key)) (meta_options m)) m)).

Definition UpdatedDateColumn (target : Target) (key : string) : Heap → Result Heap unit :=
  run (r, _) := getMeta target in
  modifyR (updMeta r (λ m, setOptions (setUpdatedAt (Has (SStr key)) (meta_options m)) m)).

Definition generatedKeyAttribute : DefineAttributeColumnOptions :=
  {| attr_type := "INTEGER"; attr_primaryKey := Has true;
     attr_autoIncrement := Has true; attr_rest := ∅ |}.

Definition PrimaryGeneratedColumn (target : Target) (key : string) : Heap → Result Heap unit :=
  run (r, _) := getMeta target in
  modifyR (updMeta r (setField key generatedKeyAttribute)).

(** ** Association decorators *)

Definition derefOptions (l : loc) (h : Heap) : AssociationOptions :=
  default emptyAssociationOptions (assocObjs h !! l).

Definition setAssocObjs (h : Heap) (m : gmap loc AssociationOptions) : Heap :=
  {| metaStores := metaStores h; assocObjs := m;
     indexObjs := indexObjs h; indexArrays := indexArrays h;
     nextLoc := nextLoc h; nextArray := nextArray h |}.

Definition bumpLoc (h : Heap) : Heap :=
  {| metaStores := metaStores h; assocObjs := assocObjs h;
     indexObjs := indexObjs h; indexArrays := indexArrays h;
     nextLoc := Pos.succ (nextLoc h); nextArray := nextArray h |}.

(** [if (options == null) options = {}]: a missing argument becomes a new
    empty object. *)
Definition ensureOptions (options : option loc) : Heap → Result Heap loc :=
  λ h, match options with
       | Some l => Ok l h
       | None =>
           Ok (nextLoc h)
              (bumpLoc (setAssocObjs h (<[nextLoc h := emptyAssociationOptions]> (assocObjs h))))
       end.

(** [options.as = key] *)
Definition writeAs (l : loc) (key : string) : Heap → Result Heap unit :=
  modifyR (λ h, setAssocObjs h (<[l := set_as key (derefOptions l h)]> (assocObjs h))).

Definition HasOne (typeFunction : unit → Func) (options : option loc)
    (target : Target) (key : string) : Heap → Result Heap unit :=
  run (r, _) := getMeta target in
  run l := ensureOptions options in
  run _ := writeAs l key in
  modifyR (updMeta r (setAssociation key (mkEntityAssociation typeFunction HAS_ONE l))).

Definition HasMany (typeFunction : unit → Func) (options : option loc)
    (target : Target) (key : string) : Heap → Result Heap unit :=
  run (r, _) := getMeta target in
  run l := ensureOptions options in
  run _ := writeAs l key in
  modifyR (updMeta r (setAssociation key (mkEntityAssociation typeFunction HAS_MANY l))).

Definition BelongsTo (typeFunction : unit → Func) (options : option loc)
    (target : Target) (key : string) : Heap → Result Heap unit :=
  run (r, _) := getMeta target in
  run l := ensureOptions options in
  run _ := writeAs l key in
  modifyR (updMeta r (setAssociation key (mkEntityAssociation typeFunction BELONGS_TO l))).

Definition ManyToMany (typeFunction : unit → Func) (options : option loc)
    (target : Target) (key : string) : Heap → Result Heap unit :=
  run (r, _) := getMeta target in
  run l := ensureOptions options in
  run through := (λ h, Ok (ao_through (derefOptions l h)) h) in
  if isNull through
  then throwR "through property is required for belongs to many association"
  else
    run _ := writeAs l key in
    modifyR (updMeta r (setAssociation key (mkEntityAssociation typeFunction BELONGS_TO_MANY l))).

(** ** Index *)

Definition cleanSlot {A} (s : Slot A) : Slot A :=
  match s with Nullish => Absent | _ => s end.

(** [clean(obj)] on an index object: every property whose value is nullish
    is deleted ([fields] is always an array). *)
Definition clean (i : DefineIndexesOptions) : DefineIndexesOptions :=
  {| idx_name := cleanSlot (idx_name i); idx_unique := cleanSlot (idx_unique i);
     idx_fields := idx_fields i |}.

(** [indexes.find(i => i.name === n)] over an array of references. *)
Fixpoint findIndex (n : string) (ls : list loc) (objs : gmap loc DefineIndexesOptions)
  : option loc :=
  match ls with
  | [] => None
  | l :: rest =>
      match objs !! l with
      | Some i => if decide (idx_name i = Has n) then Some l else findIndex n rest objs
      | None => findIndex n rest objs
      end
  end.

Definition setIndexObjs (h : Heap) (m : gmap loc DefineIndexesOptions) : Heap :=
  {| metaStores := metaStores h; assocObjs := assocObjs h;
     indexObjs := m; indexArrays := indexArrays h;
     nextLoc := nextLoc h; nextArray := nextArray h |}.

Definition setIndexArrays (h : Heap) (m : gmap loc (list loc)) : Heap :=
  {| metaStores := metaStores h; assocObjs := assocObjs h;
     indexObjs := indexObjs h; indexArrays := m;
     nextLoc := nextLoc h; nextArray := nextArray h |}.

Definition bumpArray (h : Heap) : Heap :=
  {| metaStores := metaStores h; assocObjs := assocObjs h;
     indexObjs := indexObjs h; indexArrays := indexArrays h;
     nextLoc := nextLoc h; nextArray := Pos.succ (nextArray h) |}.

Definition allocIndex (i : DefineIndexesOptions) : Heap → Result Heap loc :=
  λ h, Ok (nextLoc h) (bumpLoc (setIndexObjs h (<[nextLoc h := i]> (indexObjs h)))).

(** [index.fields.push(key)] *)
Definition pushField (key : string) (i : DefineIndexesOptions) : DefineIndexesOptions :=
  {| idx_name := idx_name i; idx_unique := idx_unique i;
     idx_fields := idx_fields i ++ [key] |}.

Definition modifyIndex (l : loc) (g : DefineIndexesOptions → DefineIndexesOptions)
  : Heap → Result Heap unit :=
  modifyR (λ h, setIndexObjs h (alter g l (indexObjs h))).

(** The elements of the array at [a]. *)
Definition derefIndexes (a : loc) (h : Heap) : list loc :=
  default [] (indexArrays h !! a).

(** The elements of [options.indexes], a nullish value read as the empty
    array the code installs first. *)
Definition indexesOf (o : DefineOptions) (h : Heap) : list loc :=
  match opt_indexes o with Has a => derefIndexes a h | _ => [] end.

(** [if (meta.options.indexes == null) meta.options.indexes = []]: a new
    array is made and the record is given the reference to it. *)
Definition ensureIndexes (r : MetaRef) (meta : IEntity) : Heap → Result Heap loc :=
  λ h, match opt_indexes (meta_options meta) with
       | Has a => Ok a h
       | _ =>
           Ok (nextArray h)
              (updMeta r (λ m, setOptions (setIndexes (Has (nextArray h)) (meta_options m)) m)
                 (bumpArray (setIndexArrays h (<[nextArray h := []]> (indexArrays h)))))
       end.

(** [meta.options.indexes.push(index)]: the array is extended in place. *)
Definition pushIndex (a l : loc) : Heap → Result Heap unit :=
  modifyR (λ h, setIndexArrays h (<[a := derefIndexes a h ++ [l]]> (indexArrays h))).

Definition Index (options : option IIndexOptions) (target : Target) (key : string)
  : Heap → Result Heap unit :=
  run (r, meta) := getMeta target in
  run a := ensureIndexes r meta in
  let options := default emptyIIndexOptions options in
  run index := (λ h, Ok (match io_name options with
                         | Has n => findIndex n (derefIndexes a h) (indexObjs h)
                         | _ => None
                         end) h) in
  run l := match index with
           | None => allocIndex {| idx_name := readSlot (io_name options);
                                   idx_unique := readSlot (io_unique options);
                                   idx_fields := [key] |}
           | Some l => run _ := modifyIndex l (pushField key) in retR l
           end in
  run _ := modifyIndex l clean in
  pushIndex a l.

(** ** The mapping engine, as far as [registerEntities] uses it *)

(** The object an association-creation method of the engine returns. *)
Record Association : Type := mkAssociation {
  assoc_kind : AssociationMethod;
  assoc_source : string;
  assoc_target : option string;
  assoc_as : Slot string
}.

(** A model handle: what [define] was given, and the properties
    [registerEntities] assigns on it afterwards. *)
Record Model : Type := mkModel {
  model_name : string;
  model_attributes : gmap string DefineAttributeColumnOptions;
  model_options : DefineOptions;
  model_props : gmap string Association
}.

Inductive EngineReply : Type :=
  | Returns (a : Association)
  | Raises (msg : string).

(** The calls made on the engine, in order. *)
Inductive EngineCall : Type :=
  | CallDefine (modelName : string)
  | CallAssociate (entity : Func) (assnName : string) (m : AssociationMethod)
                  (targetName : string).

Definition isAssociate (c : EngineCall) : bool :=
  match c with CallAssociate _ _ _ _ => true | _ => false end.

(** The engine instance: [sequelize.models], and the log of calls made on
    it (kept for the ordering property only). *)
Record Sequelize : Type := mkSequelize {
  models : gmap string Model;
  calls : list EngineCall
}.

(** [sequelize.define(name, fields, options)]: the engine builds a model and
    files it in [sequelize.models] under [name], replacing an earlier model
    of that name.  The handle keeps the arguments of the call; [define] is
    taken to return. *)
Definition define (name : string) (fields : gmap string DefineAttributeColumnOptions)
    (options : DefineOptions) (q : Sequelize) : Sequelize :=
  {| models := <[name := mkModel name fields options ∅]> (models q);
     calls := calls q ++ [CallDefine name] |}.

Definition setProp (assnName : string) (a : Association) (m : Model) : Model :=
  {| model_name := model_name m; model_attributes := model_attributes m;
     model_options := model_options m;
     model_props := <[assnName := a]> (model_props m) |}.

Definition World : Type := Heap * Sequelize.

Definition liftHeap {A} (c : Heap → Result Heap A) : World → Result World A :=
  λ w, match c w.1 with
       | Ok a h => Ok a (h, w.2)
       | Throw msg h => Throw msg (h, w.2)
       end.

Section Registrar.

(** The engine's association-creation methods ([hasOne], [belongsTo],
    [hasMany], [belongsToMany]) are not part of this repository: they are
    taken as given.  [associate m source target options] is the call
    [source[m](target, options)], where [target] is [None] when
    [sequelize.models] has no model of the looked-up name. *)
Variable associate : AssociationMethod → Model → option Model → AssociationOptions → EngineReply.

(** Pass 1: define the attributes. *)
Fixpoint definePass (entities : list Func) : World → Result World unit :=
  match entities with
  | [] => retR tt
  | entity :: rest =>
      run (_, meta) := liftHeap (getMeta (CreateFrom entity)) in
      run _ := modifyR (λ w : World,
                 (w.1, define (meta_name meta) (meta_fields meta) (meta_options meta) w.2)) in
      definePass rest
  end.

(** The inner loop of pass 2, over [Object.keys(meta.associations)].
    [model] is the handle fetched before the loop; the assignment
    [model[assnName] = ...] is made on it and is visible through
    [sequelize.models]. *)
Fixpoint associateLoop (entity : Func) (model : Model)
    (assns : list (string * IEntityAssociation)) : World → Result World unit :=
  match assns with
  | [] => retR tt
  | (assnName, entityAssociation) :: rest =>
      let targetName := fname (ea_target entityAssociation tt) in
      run model' := (λ w : World,
        let q := mkSequelize (models w.2)
                   (calls w.2 ++ [CallAssociate entity assnName
                                    (ea_method entityAssociation) targetName]) in
        match associate (ea_method entityAssociation) model (models w.2 !! targetName)
                (derefOptions (ea_association entityAssociation) w.1) with
        | Raises msg => Throw msg (w.1, q)
        | Returns a =>
            let model' := setProp assnName a model in
            Ok model' (w.1, mkSequelize (<[fname entity := model']> (models q)) (calls q))
        end) in
      associateLoop entity model' rest
  end.

(** Pass 2: define the associations.  ([meta.associations] is never null.) *)
Fixpoint associatePass (entities : list Func) : World → Result World unit :=
  match entities with
  | [] => retR tt
  | entity :: rest =>
      run (_, meta) := liftHeap (getMeta (CreateFrom entity)) in
      run _ := (λ w : World,
                 match models w.2 !! fname entity with
                 | Some model =>
                     associateLoop entity model (objectKeys (meta_associations meta)) w
                 | None => Ok tt w
                 end) in
      associatePass rest
  end.

Definition registerEntities (entities : list Func) : World → Result World (gmap string Model) :=
  run _ := definePass entities in
  run _ := associatePass entities in
  λ w, Ok (models w.2) w.

End Registrar.

(** ** Notions used in the statements *)

(** The record already stored for a class under the class's own name, if
    any: the search of [getMeta] without the creation of a new record. *)
Definition storedMeta (c : Func) (h : Heap) : option IEntity :=
  match findHolder (metaStores h) (fid c :: fsupers c) with
  | Some p => snd <$> findEntity (fname c) (default [] (metaStores h !! p))
  | None => None
  end.

(** The record a lookup for class [c] yields: the stored one, or a new one. *)
Definition view (c : Func) (h : Heap) : IEntity :=
  default (newEntity (fname c)) (storedMeta c h).

(** The model pass 1 defines for class [c] when lookups are made in heap [h]. *)
Definition modelOf (h : Heap) (c : Func) : Model :=
  mkModel (fname c) (meta_fields (view c h)) (meta_options (view c h)) ∅.

Definition defineEntity (h : Heap) (q : Sequelize) (c : Func) : Sequelize :=
  define (meta_name (view c h)) (meta_fields (view c h)) (meta_options (view c h)) q.

Definition sameViews (h h' : Heap) : Prop :=
  (∀ c, view c h' = view c h) ∧ assocObjs h' = assocObjs h.

(** The calls a loop over the associations [assns] of [entity] may make. *)
Definition callOf (entity : Func) (assns : list (string * IEntityAssociation))
    (call : EngineCall) : Prop :=
  ∃ k ea, (k, ea) ∈ assns
          ∧ call = CallAssociate entity k (ea_method ea) (fname (ea_target ea tt)).

(** The calls pass 2 may make, read off the metadata found in heap [h]. *)
Definition passCallOf (h : Heap) (entities : list Func) (call : EngineCall) : Prop :=
  ∃ c, c ∈ entities ∧ callOf c (meta_associations (view c h)) call.

(** The options a call of [Entity] itself brings: the [options] argument,
    or an options object given in place of the name. *)
Definition suppliedOptions (name : NameArg) (options : option DefineOptions) : DefineOptions :=
  match options, name with
  | Some o, _ => o
  | None, NameObj o => o
  | None, _ => emptyDefineOptions
  end.

(** What [Entity] leaves in one timestamp option, given what was stored
    and what the call supplied. *)
Definition timestampRule (stored supplied result : Slot StrOrBool) : Prop :=
  isNull result = false
  ∧ (∀ v, stored = Has v → result = Has v)
  ∧ (isNull stored = true → isNull supplied = true → result = Has (SBool false))
  ∧ (∀ v, stored = Absent → supplied = Has v → result = Has v).

(** The four association decorators, by the method they record. *)
Definition associationDecorator (m : AssociationMethod) :=
  match m with
  | HAS_ONE => HasOne
  | HAS_MANY => HasMany
  | BELONGS_TO => BelongsTo
  | BELONGS_TO_MANY => ManyToMany
  end.

(** The options object an association decorator works on. *)
Definition optionsLoc (options : option loc) (h : Heap) : loc :=
  match options with Some l => l | None => nextLoc h end.

Definition afterWrite (l : loc) (key : string) (h : Heap) : Heap :=
  setAssocObjs h (<[l := set_as key (derefOptions l h)]> (assocObjs h)).

(** The one case in which an association decorator throws. *)
Definition throughMissing (m : AssociationMethod) (o : AssociationOptions) : bool :=
  match m with BELONGS_TO_MANY => isNull (ao_through o) | _ => false end.

Definition foundIndex (options : option IIndexOptions) (e : IEntity) (h : Heap) : option loc :=
  match io_name (default emptyIIndexOptions options) with
  | Has n => findIndex n (indexesOf (meta_options e) h) (indexObjs h)
  | _ => None
  end.

(** The array a call of [Index] pushes onto: the one the record holds, or
    the new one it is given. *)
Definition indexArrayOf (e : IEntity) (h : Heap) : loc :=
  match opt_indexes (meta_options e) with Has a => a | _ => nextArray h end.

(** What [Index] writes to the record [e] it found: the reference to the
    new array, when the record held none. *)
Definition installIndexes (e : IEntity) (h : Heap) : IEntity → IEntity :=
  if isNull (opt_indexes (meta_options e))
  then λ m, setOptions (setIndexes (Has (nextArray h)) (meta_options m)) m
  else id.

(** The index object a call of [Index] creates or extends. *)
Definition indexLoc (options : option IIndexOptions) (e : IEntity) (h : Heap) : loc :=
  default (nextLoc h) (foundIndex options e h).

Definition newIndexObject (options : option IIndexOptions) (key : string) : DefineIndexesOptions :=
  {| idx_name := readSlot (io_name (default emptyIIndexOptions options));
     idx_unique := readSlot (io_unique (default emptyIIndexOptions options));
     idx_fields := [key] |}.

Definition indexObjsAfter (options : option IIndexOptions) (key : string) (e : IEntity)
    (h : Heap) : gmap loc DefineIndexesOptions :=
  match foundIndex options e h with
  | None => alter clean (nextLoc h) (<[nextLoc h := newIndexObject options key]> (indexObjs h))
  | Some l => alter clean l (alter (pushField key) l (indexObjs h))
  end.

(** The member decorators. *)
Inductive Decoration : Type :=
  | DColumn (attribute : DefineAttributeColumnOptions)
  | DPrimaryGeneratedColumn
  | DCreatedDateColumn
  | DUpdatedDateColumn
  | DAssociation (m : AssociationMethod) (typeFunction : unit → Func) (options : option loc)
  | DIndex (options : option IIndexOptions).

Definition decorate (d : Decoration) : Target → string → Heap → Result Heap unit :=
  match d with
  | DColumn a => Column a
  | DPrimaryGeneratedColumn => PrimaryGeneratedColumn
  | DCreatedDateColumn => CreatedDateColumn
  | DUpdatedDateColumn => UpdatedDateColumn
  | DAssociation m tf o => associationDecorator m tf o
  | DIndex o => Index o
  end.









(** Whether the object at [l] is an index named [n]. *)
Definition namedIn (objs : gmap loc DefineIndexesOptions) (n : string) (l : loc) : bool :=
  match objs !! l with
  | Some o => bool_decide (idx_name o = Has n)
  | None => false
  end.

(** Whether a call of [Index] asks for the index named [n]. *)
Definition namesIndex (n : string) (options : option IIndexOptions) : bool :=
  bool_decide (io_name (default emptyIIndexOptions options) = Has n).

(** A run of [Index] decorations on the properties of one class, in
    declaration order. *)
Fixpoint decorateIndexes (c : Func) (steps : list (option IIndexOptions * string))
  : Heap → Result Heap unit :=
  match steps with
  | [] => retR tt
  | (options, key) :: rest =>
      run _ := Index options (ProtoOf c) key in
      decorateIndexes c rest
  end.

(** The properties decorated with the index name [n], in order. *)
Fixpoint keysNamed (n : string) (steps : list (option IIndexOptions * string)) : list string :=
  match steps with
  | [] => []
  | (options, key) :: rest =>
      if namesIndex n options then key :: keysNamed n rest else keysNamed n rest
  end.

(** Index objects live below the allocation pointer. *)
Definition indexHeapOk (h : Heap) : Prop :=
  ∀ l, is_Some (indexObjs h !! l) → (l < nextLoc h)%positive.

(** The invariant of a run of [Index] decorations, for the index name [n]:
    every listed index object of that name is the one [find] returns and
    has the fields [fs]; if there is none, [fs] is empty. *)
Definition idxInv (n : string) (fs : list string) (ixs : list loc)
    (objs : gmap loc DefineIndexesOptions) : Prop :=
  (∀ l o, l ∈ ixs → objs !! l = Some o → idx_name o = Has n →
          idx_fields o = fs ∧ findIndex n ixs objs = Some l)
  ∧ (findIndex n ixs objs = None → fs = []).

(** No store holds two records of the same name. *)
Definition storesDistinct (h : Heap) : Prop :=
  ∀ p es, metaStores h !! p = Some es → NoDup (meta_name <$> es).




(** The association calls pass 2 sets out to make, in order: for each
    entity of the list, its associations as [Object.keys] enumerates them,
    read off the metadata found in heap [h]. *)
Definition passWork (h : Heap) (entities : list Func)
  : list (Func * (string * IEntityAssociation)) :=
  c ← entities; (λ x, (c, x)) <$> objectKeys (meta_associations (view c h)).


Section PassTwo.

Variable associate : AssociationMethod → Model → option Model → AssociationOptions → EngineReply.
Variable h : Heap.



End PassTwo.

(** ** Concrete classes, engines and heaps *)

Definition exUser : Func := mkFunc 1 "User" [].
Definition exPost : Func := mkFunc 2 "Post" [].
Definition exComment : Func := mkFunc 4 "Comment" [].
(** A second class that is also called [User]. *)
Definition exOtherUser : Func := mkFunc 3 "User" [].

Definition noModels : Sequelize := mkSequelize ∅ [].

(** An engine that rejects a missing target model, as Sequelize does. *)
Definition strictEngine (m : AssociationMethod) (source : Model) (target : option Model)
    (options : AssociationOptions) : EngineReply :=
  match target with
  | None => Raises "association called with something that is not a model"
  | Some t => Returns (mkAssociation m (model_name source) (Some (model_name t)) (ao_as options))
  end.

(** An engine that builds an association whatever the target is. *)
Definition lenientEngine (m : AssociationMethod) (source : Model) (target : option Model)
    (options : AssociationOptions) : EngineReply :=
  Returns (mkAssociation m (model_name source) (model_name <$> target) (ao_as options)).

Definition exIdColumn : DefineAttributeColumnOptions :=
  {| attr_type := "INTEGER"; attr_primaryKey := Has true;
     attr_autoIncrement := Absent; attr_rest := ∅ |}.

(** An object literal evaluated at the call site: a new options object. *)
Definition newOptionsObject (o : AssociationOptions) : Heap → Result Heap loc :=
  λ h, Ok (nextLoc h) (bumpLoc (setAssocObjs h (<[nextLoc h := o]> (assocObjs h)))).

(** [class User { @HasOne(() => Post) post }], decorated with [@Entity()]. *)
Definition exHeapUserHasPost : Heap :=
  stateOf (Entity NameNone None exUser
    (stateOf (HasOne (λ _, exPost) None (ProtoOf exUser) "post" emptyHeap))).

(** The same class decorated with [@Entity('users')], and [Post] with
    [@Entity()]. *)
Definition exHeapRenamedUser : Heap :=
  stateOf (Entity NameNone None exPost
    (stateOf (Entity (NameStr "users") None exUser
      (stateOf (HasOne (λ _, exPost) None (ProtoOf exUser) "post" emptyHeap))))).

(** Two classes called [User], each with a column and [@Entity()]. *)
Definition exHeapTwoUsers : Heap :=
  stateOf (Entity NameNone None exOtherUser
    (stateOf (Column exIdColumn (ProtoOf exOtherUser) "id"
      (stateOf (Entity NameNone None exUser
        (stateOf (Column exIdColumn (ProtoOf exUser) "id" emptyHeap))))))).

(** [User] and [Post], each with a column and [@Entity()]. *)
Definition exHeapUserAndPost : Heap :=
  stateOf (Entity NameNone None exPost
    (stateOf (Column exIdColumn (ProtoOf exPost) "id"
      (stateOf (Entity NameNone None exUser
        (stateOf (Column exIdColumn (ProtoOf exUser) "id" emptyHeap))))))).

(** [User] with a column, decorated with [@Entity('users')]. *)
Definition exHeapUsersTable : Heap :=
  stateOf (Entity (NameStr "users") None exUser
    (stateOf (Column exIdColumn (ProtoOf exUser) "id" emptyHeap))).

(** An engine on which a model was defined earlier. *)
Definition exLegacyModels : Sequelize :=
  define "Legacy" ∅ emptyDefineOptions noModels.

(** One options object given to two association decorators:
    [const shared = { foreignKey: 'ownerId' }]. *)
Definition exSharedOptions : AssociationOptions :=
  {| ao_as := Absent; ao_through := Absent; ao_rest := {[ "foreignKey" := JStr "ownerId" ]} |}.

Definition exHeapShared0 : Heap := stateOf (newOptionsObject exSharedOptions emptyHeap).

Definition exHeapShared1 : Heap :=
  stateOf (HasOne (λ _, exPost) (Some 1%positive) (ProtoOf exUser) "post" exHeapShared0).

Definition exHeapShared2 : Heap :=
  stateOf (HasMany (λ _, exComment) (Some 1%positive) (ProtoOf exUser) "comments" exHeapShared1).

(** An array literal evaluated at the call site: a new [indexes] array. *)
Definition newIndexArray (ls : list loc) : Heap → Result Heap loc :=
  λ h, Ok (nextArray h) (bumpArray (setIndexArrays h (<[nextArray h := ls]> (indexArrays h)))).

(** One [indexes] array given to [Entity] on two classes:
    [const shared = { indexes: [] }], [Entity(undefined, shared)(User)],
    [Entity(undefined, shared)(Post)]. *)
Definition exSharedIndexes : DefineOptions :=
  {| opt_createdAt := Absent; opt_updatedAt := Absent;
     opt_indexes := Has 1%positive; opt_rest := ∅ |}.

Definition exHeapSharedIndexes : Heap :=
  stateOf (Entity NameNone (Some exSharedIndexes) exPost
    (stateOf (Entity NameNone (Some exSharedIndexes) exUser
      (stateOf (newIndexArray [] emptyHeap))))).

(** The [as] that the association stored under [key] reads in heap [h]. *)
Definition storedAs (c : Func) (key : string) (h : Heap) : option (Slot string) :=
  ea ← assocGet key (meta_associations (view c h));
  Some (ao_as (derefOptions (ea_association ea) h)).

Definition exCreatedAtOptions : DefineOptions :=
  {| opt_createdAt := Has (SStr "created"); opt_updatedAt := Absent;
     opt_indexes := Absent; opt_rest := ∅ |}.

Definition exIndexSteps : list (option IIndexOptions * string) :=
  [ (Some (mkIIndexOptions (Has "by_name") (Has true)), "lastName");
    (None, "email");
    (Some (mkIIndexOptions (Has "by_name") Absent), "firstName") ].

(** ** Notions used in the further properties *)

(** Two handles that agree on what [define] was given. *)
Definition sameDefinition (m m' : Model) : Prop :=
  model_name m' = model_name m
  ∧ model_attributes m' = model_attributes m
  ∧ model_options m' = model_options m.

(** [ms'] holds the models of [ms] and no others, each as it was defined. *)
Definition modelsKept (ms ms' : gmap string Model) : Prop :=
  ∀ k, match ms !! k with
       | Some m => ∃ m', ms' !! k = Some m' ∧ sameDefinition m m'
       | None => ms' !! k = None
       end.

(** The model [define] makes for a class without metadata. *)
Definition emptyModel (c : Func) : Model :=
  mkModel (fname c) ∅ emptyDefineOptions ∅.


(** ** Concrete inputs for the further properties *)



(** [User] with a column and no [Entity] decoration yet. *)
Definition exHeapUserColumn : Heap :=
  stateOf (Column exIdColumn (ProtoOf exUser) "id" emptyHeap).

Definition exHasOnePost : IEntityAssociation :=
  mkEntityAssociation (λ _, exPost) HAS_ONE 1%positive.

Definition exTableOptions : DefineOptions :=
  {| opt_createdAt := Absent; opt_updatedAt := Absent; opt_indexes := Absent;
     opt_rest := {[ "tableName" := JStr "people" ]} |}.

Definition exOtherTableOptions : DefineOptions :=
  {| opt_createdAt := Absent; opt_updatedAt := Absent; opt_indexes := Absent;
     opt_rest := {[ "tableName" := JStr "users"; "paranoid" := JBool true ]} |}.

(** [User] decorated with [@Entity({ tableName: 'people' })]. *)
Definition exHeapPeopleTable : Heap :=
  stateOf (Entity NameNone (Some exTableOptions) exUser emptyHeap).

Definition exByNameUnique : option IIndexOptions :=
  Some (mkIIndexOptions (Has "by_name") (Has true)).

Definition exByNameAgain : list (option IIndexOptions * string) :=
  [ (Some (mkIIndexOptions (Has "by_name") Absent), "firstName") ].

(** * Properties *)

(** ** Searching the stores *)

Lemma findEntity_Some n es i e :
  findEntity n es = Some (i, e) → es !! i = Some e ∧ meta_name e = n.
Proof.
  revert i. induction es as [|x es IH]; intros i H; simpl in H; [done|].
  destruct (decide (meta_name x = n)) as [Hx|Hx].
  - by inversion H; subst.
  - destruct (findEntity n es) as [[j y]|] eqn:E; simpl in H; [|done].
    inversion H; subst. simpl. by apply IH.
Qed.

Lemma findEntity_app_new n n' es :
  findEntity n (es ++ [newEntity n']) =
  match findEntity n es with
  | Some x => Some x
  | None => if decide (n' = n) then Some (length es, newEntity n') else None
  end.
Proof.
  induction es as [|x es IH]; simpl.
  - by destruct (decide (n' = n)).
  - destruct (decide (meta_name x = n)); [done|].
    rewrite IH. destruct (findEntity n es) as [[j y]|]; [done|].
    by destruct (decide (n' = n)).
Qed.

Lemma findEntity_alter n g i e es :
  findEntity n es = Some (i, e) → meta_name (g e) = n →
  findEntity n (alter g i es) = Some (i, g e).
Proof.
  intros H Hg. revert i H. induction es as [|x es IH]; intros i H; [done|].
  simpl in H. destruct (decide (meta_name x = n)) as [Hx|Hx].
  - inversion H; subst. simpl. by rewrite decide_True.
  - destruct (findEntity n es) as [[j y]|] eqn:E; simpl in H; [|done].
    inversion H; subst. simpl. rewrite decide_False by done.
    specialize (IH j eq_refl). unfold alter in IH. by rewrite IH.
Qed.

Lemma findEntity_None_lookup n es i e :
  findEntity n es = None → es !! i = Some e → meta_name e ≠ n.
Proof.
  revert i. induction es as [|x es IH]; intros i H Hi; [done|].
  simpl in H. destruct (decide (meta_name x = n)) as [Hx|Hx]; [done|].
  destruct (findEntity n es) as [[j y]|] eqn:E; [done|].
  destruct i as [|i]; simpl in Hi; [by inversion Hi; subst|]. by eapply IH.
Qed.

Lemma findHolder_Some st chain p :
  findHolder st chain = Some p → is_Some (st !! p).
Proof.
  induction chain as [|x chain IH]; simpl; [done|].
  destruct (st !! x) eqn:E; [|done]. intros [= <-]. by rewrite E.
Qed.

Lemma findHolder_same_dom st st' chain :
  (∀ p, is_Some (st' !! p) ↔ is_Some (st !! p)) →
  findHolder st' chain = findHolder st chain.
Proof.
  intros Hd. induction chain as [|x chain IH]; simpl; [done|].
  destruct (st !! x) eqn:E, (st' !! x) eqn:E'; try done.
  - exfalso. assert (is_Some (st' !! x)) as [? ?] by (apply Hd; by rewrite E). congruence.
  - exfalso. assert (is_Some (st !! x)) as [? ?] by (apply Hd; by rewrite E'). congruence.
Qed.

Lemma setStores_id h : setStores h (metaStores h) = h.
Proof. by destruct h. Qed.

(** ** What [getMeta] returns and what it changes *)

Lemma getMeta_CreateFrom_result c h :
  ∃ r h1, getMeta (CreateFrom c) h = Ok (r, view c h) h1.
Proof.
  unfold getMeta, view, storedMeta, findOrPush. cbn [constructorName protoChain].
  destruct (findHolder (metaStores h) (fid c :: fsupers c)) as [p|]; simpl; [|by eauto].
  destruct (findEntity (fname c) (default [] (metaStores h !! p))) as [[i e]|]; simpl; by eauto.
Qed.

Lemma view_name c h : meta_name (view c h) = fname c.
Proof.
  unfold view, storedMeta.
  destruct (findHolder (metaStores h) (fid c :: fsupers c)) as [p|]; [|done].
  destruct (findEntity (fname c) (default [] (metaStores h !! p))) as [[i e]|] eqn:E; [|done].
  by apply findEntity_Some in E as [_ ?].
Qed.

(** Pushing a new record named [n] into a store that has none of that name
    changes no lookup. *)
Lemma view_push c' h p n :
  is_Some (metaStores h !! p) →
  findEntity n (default [] (metaStores h !! p)) = None →
  view c' (setStores h (<[p := default [] (metaStores h !! p) ++ [newEntity n]]> (metaStores h)))
  = view c' h.
Proof.
  intros Hp Hn. unfold view, storedMeta. cbn [metaStores setStores].
  rewrite (findHolder_same_dom (metaStores h)).
  2:{ intros x. destruct (decide (x = p)) as [->|Hx].
      - rewrite lookup_insert_eq. split; [done|by eauto].
      - by rewrite lookup_insert_ne. }
  destruct (findHolder (metaStores h) (fid c' :: fsupers c')) as [p'|]; [|done].
  destruct (decide (p' = p)) as [->|Hne].
  - rewrite lookup_insert_eq. simpl. rewrite findEntity_app_new.
    destruct (findEntity (fname c') (default [] (metaStores h !! p))) as [[i e]|] eqn:E; [done|].
    destruct (decide (n = fname c')) as [->|]; [done|done].
  - by rewrite lookup_insert_ne.
Qed.

(** A lookup made during registration changes no later lookup, and touches
    nothing but the stores. *)
Lemma getMeta_CreateFrom_stable c h :
  let h1 := stateOf (getMeta (CreateFrom c) h) in
  (∀ c', view c' h1 = view c' h) ∧ assocObjs h1 = assocObjs h
  ∧ indexObjs h1 = indexObjs h ∧ nextLoc h1 = nextLoc h.
Proof.
  unfold getMeta, findOrPush. cbn [constructorName protoChain].
  destruct (findHolder (metaStores h) (fid c :: fsupers c)) as [p|] eqn:Hh; [|done].
  destruct (findEntity (fname c) (default [] (metaStores h !! p))) as [[i e]|] eqn:E; [done|].
  simpl. split_and!; try done.
  intros c'. apply view_push; [|done]. by eapply findHolder_Some.
Qed.

(** ** The order of [Object.keys] *)

Lemma elem_of_insertByIndex {V} n (x : string * V) l y :
  y ∈ insertByIndex n x l ↔ y = (n, x) ∨ y ∈ l.
Proof.
  induction l as [|[m z] l IH]; cbn [insertByIndex].
  - rewrite list_elem_of_singleton. split; [by left|]. intros [?|H]; [done|].
    by apply elem_of_nil in H.
  - destruct (decide (n < m)%N).
    + by rewrite elem_of_cons.
    + rewrite !elem_of_cons, IH. tauto.
Qed.

Lemma elem_of_indexKeys {V} (l : list (string * V)) n x :
  (n, x) ∈ indexKeys l ↔ x ∈ l ∧ arrayIndex x.1 = Some n.
Proof.
  induction l as [|y l IH]; cbn [indexKeys].
  - split; [intros H; by apply elem_of_nil in H|]. intros [H _]. by apply elem_of_nil in H.
  - destruct (arrayIndex y.1) as [m|] eqn:E.
    + rewrite elem_of_insertByIndex, IH, elem_of_cons. split.
      * intros [[= -> ->]|[? ?]]; [split; [by left|done]|split; [by right|done]].
      * intros [[->|?] ?]; [left; congruence|by right].
    + rewrite IH, elem_of_cons. split; [intros [? ?]; split; [by right|done]|].
      intros [[->|?] ?]; [congruence|done].
Qed.

Lemma elem_of_nameKeys {V} (l : list (string * V)) x :
  x ∈ nameKeys l ↔ x ∈ l ∧ arrayIndex x.1 = None.
Proof.
  induction l as [|y l IH]; cbn [nameKeys].
  - split; [intros H; by apply elem_of_nil in H|]. intros [H _]. by apply elem_of_nil in H.
  - destruct (arrayIndex y.1) as [m|] eqn:E.
    + rewrite IH, elem_of_cons. split; [intros [? ?]; split; [by right|done]|].
      intros [[->|?] ?]; [congruence|done].
    + rewrite !elem_of_cons, IH. split.
      * intros [->|[? ?]]; [split; [by left|done]|split; [by right|done]].
      * intros [[->|?] ?]; [by left|by right].
Qed.

(** [Object.keys] enumerates every property, each once. *)
Lemma elem_of_objectKeys {V} (l : list (string * V)) x : x ∈ objectKeys l ↔ x ∈ l.
Proof.
  unfold objectKeys. rewrite elem_of_app, elem_of_nameKeys, list_elem_of_fmap. split.
  - intros [([n y] & -> & H)|[? _]]; [|done]. by apply elem_of_indexKeys in H as [? _].
  - intros Hx. destruct (arrayIndex x.1) as [n|] eqn:E; [left|by right].
    exists (n, x). split; [done|]. by apply elem_of_indexKeys.
Qed.

Lemma objectKeys_nil {V} : objectKeys (@nil (string * V)) = [].
Proof. done. Qed.

Lemma objectKeys_singleton {V} (x : string * V) : objectKeys [x] = [x].
Proof. unfold objectKeys. cbn. by destruct (arrayIndex x.1). Qed.

(** ** The two passes of the registrar *)

Lemma sameViews_trans h1 h2 h3 : sameViews h1 h2 → sameViews h2 h3 → sameViews h1 h3.
Proof.
  intros [V1 A1] [V2 A2]. split; [|congruence].
  intros c. by rewrite V2, V1.
Qed.

Lemma getMeta_CreateFrom_run c h :
  ∃ r h1, getMeta (CreateFrom c) h = Ok (r, view c h) h1 ∧ sameViews h h1.
Proof.
  destruct (getMeta_CreateFrom_result c h) as (r & h1 & E).
  exists r, h1. split; [done|].
  pose proof (getMeta_CreateFrom_stable c h) as S. rewrite E in S. simpl in S.
  destruct S as (? & ? & _). by split.
Qed.

Lemma defineEntity_sameViews h h' q c :
  sameViews h h' → defineEntity h' q c = defineEntity h q c.
Proof. intros [V _]. unfold defineEntity. by rewrite V. Qed.

Lemma foldl_defineEntity_sameViews h h' q cs :
  sameViews h h' → foldl (defineEntity h') q cs = foldl (defineEntity h) q cs.
Proof.
  intros S. revert q. induction cs as [|c cs IH]; intros q; simpl; [done|].
  by rewrite IH, (defineEntity_sameViews h h').
Qed.

Lemma calls_foldl_defineEntity h q cs :
  calls (foldl (defineEntity h) q cs) = calls q ++ (CallDefine ∘ fname <$> cs).
Proof.
  revert q. induction cs as [|c cs IH]; intros q; simpl.
  - by rewrite app_nil_r.
  - rewrite IH. simpl. rewrite view_name. by rewrite <- app_assoc.
Qed.

Lemma models_foldl_defineEntity h q cs :
  models (foldl (defineEntity h) q cs)
  = foldl (λ m c, <[fname c := modelOf h c]> m) (models q) cs.
Proof.
  revert q. induction cs as [|c cs IH]; intros q; simpl; [done|].
  rewrite IH. simpl. by rewrite view_name.
Qed.

Section InsertFold.
Context {V : Type} (key : Func → string) (val : Func → V).

Lemma foldl_insert_notin (m : gmap string V) cs n :
  n ∉ key <$> cs → foldl (λ m c, <[key c := val c]> m) m cs !! n = m !! n.
Proof.
  revert m. induction cs as [|c cs IH]; intros m Hn; simpl; [done|].
  rewrite fmap_cons in Hn. apply not_elem_of_cons in Hn as [Hne Hn].
  rewrite IH by done. by rewrite lookup_insert_ne.
Qed.

Lemma foldl_insert_in (m : gmap string V) cs c :
  NoDup (key <$> cs) → c ∈ cs →
  foldl (λ m c, <[key c := val c]> m) m cs !! key c = Some (val c).
Proof.
  revert m. induction cs as [|x cs IH]; intros m Hnd Hc; simpl.
  - by apply elem_of_nil in Hc.
  - rewrite fmap_cons in Hnd. apply NoDup_cons in Hnd as [Hx Hnd].
    apply elem_of_cons in Hc as [->|Hc].
    + rewrite foldl_insert_notin by done. by rewrite lookup_insert_eq.
    + by apply IH.
Qed.

Lemma foldl_insert_size (m : gmap string V) cs :
  NoDup (key <$> cs) → (∀ c, c ∈ cs → m !! key c = None) →
  size (foldl (λ m c, <[key c := val c]> m) m cs) = size m + length cs.
Proof.
  revert m. induction cs as [|x cs IH]; intros m Hnd Hfresh; simpl; [lia|].
  rewrite fmap_cons in Hnd. apply NoDup_cons in Hnd as [Hx Hnd].
  rewrite IH; [| done |].
  - rewrite map_size_insert_None; [lia|]. apply Hfresh. by left.
  - intros c Hc. rewrite lookup_insert_ne.
    + apply Hfresh. by right.
    + intros E. apply Hx. rewrite E. by apply list_elem_of_fmap_2.
Qed.

Lemma foldl_insert_keeps (m : gmap string V) cs n :
  is_Some (m !! n) → is_Some (foldl (λ m c, <[key c := val c]> m) m cs !! n).
Proof.
  revert m. induction cs as [|x cs IH]; intros m Hm; simpl; [done|].
  apply IH. destruct (decide (key x = n)) as [<-|Hne].
  - rewrite lookup_insert_eq. by eauto.
  - by rewrite lookup_insert_ne.
Qed.

Lemma foldl_insert_is_Some (m : gmap string V) cs c :
  c ∈ cs → is_Some (foldl (λ m c, <[key c := val c]> m) m cs !! key c).
Proof.
  revert m. induction cs as [|x cs IH]; intros m Hc; simpl.
  - by apply elem_of_nil in Hc.
  - apply elem_of_cons in Hc as [->|Hc]; [|by apply IH].
    apply foldl_insert_keeps. rewrite lookup_insert_eq. by eauto.
Qed.

End InsertFold.

Section RegistrarFacts.
Variable associate : AssociationMethod → Model → option Model → AssociationOptions → EngineReply.

Lemma definePass_run entities h q :
  ∃ h', definePass entities (h, q)
        = Ok tt (h', foldl (defineEntity h) q entities)
        ∧ sameViews h h'.
Proof.
  revert h q. induction entities as [|c cs IH]; intros h q.
  - exists h. by split.
  - destruct (getMeta_CreateFrom_run c h) as (r & h1 & E & S1).
    destruct (IH h1 (defineEntity h q c)) as (h' & E' & S').
    exists h'. split; [|by eapply sameViews_trans].
    cbn [definePass]. unfold bindR, liftHeap, modifyR. cbn [fst snd]. rewrite E.
    cbn [fst snd]. fold (defineEntity h q c).
    rewrite E'. by rewrite (foldl_defineEntity_sameViews h h1).
Qed.

Lemma associateLoop_run entity model assns w :
  let r := associateLoop associate entity model assns w in
  (stateOf r).1 = w.1
  ∧ ∃ cs, calls (stateOf r).2 = calls w.2 ++ cs ∧ Forall (callOf entity assns) cs.
Proof.
  revert model w. induction assns as [|[k ea] assns IH]; intros model w.
  - simpl. split; [done|]. exists []. by rewrite app_nil_r.
  - cbn [associateLoop]. unfold bindR.
    destruct (associate (ea_method ea) model
                (models w.2 !! fname (ea_target ea tt))
                (derefOptions (ea_association ea) w.1)) as [a|msg].
    + match goal with |- context [associateLoop associate entity ?m assns ?w'] =>
        destruct (IH m w') as (Hh & cs & Hc & Hall) end.
      cbn zeta. split; [by rewrite Hh|].
      eexists (_ :: cs). rewrite Hc. cbn [calls snd]. rewrite <- app_assoc. split; [done|].
      constructor.
      * exists k, ea. split; [by left|done].
      * eapply Forall_impl; [exact Hall|]. intros call (k' & ea' & Hin & ->).
        exists k', ea'. split; [by right|done].
    + cbn. split; [done|]. eexists [_]. split; [done|].
      constructor; [|done]. exists k, ea. split; [by left|done].
Qed.

Lemma associatePass_run entities w :
  let r := associatePass associate entities w in
  sameViews w.1 (stateOf r).1
  ∧ ∃ cs, calls (stateOf r).2 = calls w.2 ++ cs ∧ Forall (passCallOf w.1 entities) cs.
Proof.
  revert w. induction entities as [|c cs IH]; intros [h q].
  - simpl. split; [done|]. exists []. by rewrite app_nil_r.
  - destruct (getMeta_CreateFrom_run c h) as (r & h1 & E & S1).
    cbv zeta.
    assert (associatePass associate (c :: cs) (h, q)
            = match match models q !! fname c with
                    | Some model =>
                        associateLoop associate c model
                          (objectKeys (meta_associations (view c h))) (h1, q)
                    | None => Ok tt (h1, q)
                    end with
              | Ok _ s' => associatePass associate cs s'
              | Throw msg s' => Throw msg s'
              end) as ->.
    { cbn [associatePass]. unfold bindR, liftHeap. cbn [fst snd]. by rewrite E. }
    cbn [fst snd].
    assert (∃ r1 : Result World unit,
      match models q !! fname c with
      | Some model =>
          associateLoop associate c model (objectKeys (meta_associations (view c h))) (h1, q)
      | None => Ok tt (h1, q)
      end = r1 ∧ (stateOf r1).1 = h1
      ∧ ∃ cs1, calls (stateOf r1).2 = calls q ++ cs1
               ∧ Forall (callOf c (meta_associations (view c h))) cs1)
      as (r1 & -> & Hh1 & cs1 & Hc1 & Hall1).
    { destruct (models q !! fname c) as [model|].
      - eexists. split; [done|].
        destruct (associateLoop_run c model (objectKeys (meta_associations (view c h)))
                    (h1, q)) as (? & cs1 & ? & Hall1).
        split; [done|]. exists cs1. split; [done|].
        eapply Forall_impl; [exact Hall1|]. intros call (k & ea & Hin & ->).
        exists k, ea. split; [|done]. by apply elem_of_objectKeys.
      - eexists. split; [done|]. split; [done|]. exists []. by rewrite app_nil_r. }
    assert (Forall (passCallOf h (c :: cs)) cs1) as Hall1'.
    { eapply Forall_impl; [exact Hall1|]. intros call Hc. exists c. split; [by left|done]. }
    destruct r1 as [[] [h2 q2]|msg [h2 q2]]; cbn [stateOf fst snd] in *; subst h2.
    + destruct (IH (h1, q2)) as (S2 & cs2 & Hc2 & Hall2). cbn [fst snd] in *.
      split; [by eapply sameViews_trans|].
      exists (cs1 ++ cs2). rewrite Hc2, Hc1, <- app_assoc. split; [done|].
      apply Forall_app. split; [done|].
      eapply Forall_impl; [exact Hall2|]. intros call (c' & Hin & Hcall).
      exists c'. split; [by right|]. destruct S1 as [V _]. by rewrite <- V.
    + split; [done|]. by exists cs1.
Qed.

End RegistrarFacts.

Section RegistrarTheorems.
Variable associate : AssociationMethod → Model → option Model → AssociationOptions → EngineReply.

Lemma associatePass_app pre post w :
  associatePass associate (pre ++ post) w
  = match associatePass associate pre w with
    | Ok _ w' => associatePass associate post w'
    | Throw msg w' => Throw msg w'
    end.
Proof.
  revert w. induction pre as [|c pre IH]; intros w; [done|].
  cbn [app associatePass]. unfold bindR.
  destruct (liftHeap (getMeta (CreateFrom c)) w) as [[r meta] w1|]; [|done].
  destruct (match models w1.2 !! fname c with
            | Some model =>
                associateLoop associate c model (objectKeys (meta_associations meta)) w1
            | None => Ok tt w1
            end) as [[] w2|]; [|done].
  apply IH.
Qed.

Lemma associatePass_nothing entities h q :
  (∀ c, c ∈ entities → meta_associations (view c h) = []) →
  ∃ h', associatePass associate entities (h, q) = Ok tt (h', q) ∧ sameViews h h'.
Proof.
  revert h. induction entities as [|c cs IH]; intros h Hno.
  - exists h. by split.
  - destruct (getMeta_CreateFrom_run c h) as (r & h1 & E & S1).
    destruct (IH h1) as (h' & E' & S').
    { intros c' Hc'. destruct S1 as [V _]. rewrite V. apply Hno. by right. }
    exists h'. split; [|by eapply sameViews_trans].
    cbn [associatePass]. unfold bindR, liftHeap. cbn [fst snd]. rewrite E. cbn [fst snd].
    rewrite (Hno c) by (by left).
    by destruct (models q !! fname c).
Qed.

Lemma associatePass_cons c cs h q :
  ∃ h1, sameViews h h1 ∧
    associatePass associate (c :: cs) (h, q)
    = match match models q !! fname c with
            | Some model =>
                associateLoop associate c model (objectKeys (meta_associations (view c h))) (h1, q)
            | None => Ok tt (h1, q)
            end with
      | Ok _ s' => associatePass associate cs s'
      | Throw msg s' => Throw msg s'
      end.
Proof.
  destruct (getMeta_CreateFrom_run c h) as (r & h1 & E & S1).
  exists h1. split; [done|].
  cbn [associatePass]. unfold bindR, liftHeap. cbn [fst snd]. by rewrite E.
Qed.

Lemma derefOptions_sameViews h h' l :
  sameViews h h' → derefOptions l h' = derefOptions l h.
Proof. intros [_ A]. unfold derefOptions. by rewrite A. Qed.

(** C4.  In every run of [registerEntities], the calls made on the engine
    are first one model definition per entity of the list, in list order,
    and only then association-creation calls: no association is created
    before every entity has been defined.  This holds whether the run
    returns or an association-creation call raises. *)
Theorem registerEntities_defines_before_associates entities w :
  ∃ cs, calls (stateOf (registerEntities associate entities w)).2
        = calls w.2 ++ (CallDefine ∘ fname <$> entities) ++ cs
        ∧ Forall (λ call, isAssociate call = true) cs.
Proof.
  destruct w as [h q].
  destruct (definePass_run entities h q) as (h1 & E1 & _).
  pose proof (associatePass_run associate entities (h1, foldl (defineEntity h) q entities))
    as (_ & cs & Hc & Hall).
  exists cs. split.
  - unfold registerEntities, bindR. rewrite E1.
    cbn [snd] in Hc. rewrite calls_foldl_defineEntity, <- app_assoc in Hc.
    by destruct (associatePass associate entities _) as [[] w2|msg w2].
  - eapply Forall_impl; [exact Hall|].
    by intros call (c & _ & k & ea & _ & ->).
Qed.

(** C6, amended.  For every list of N entities whose class names are
    pairwise distinct, each of which has its metadata record stored under
    the class's own name and declares no association, registered with an
    engine that holds no model yet, [registerEntities] returns a mapping of
    exactly N model handles, one per entity, keyed by the entity's stored
    name and built from its stored fields and options. *)
Theorem registerEntities_one_handle_per_entity entities h q :
  NoDup (fname <$> entities) →
  models q = ∅ →
  (∀ c, c ∈ entities → ∃ e, storedMeta c h = Some e ∧ meta_associations e = []) →
  ∃ ms w', registerEntities associate entities (h, q) = Ok ms w'
    ∧ size ms = length entities
    ∧ ∀ c, c ∈ entities →
        ∃ e, storedMeta c h = Some e
             ∧ ms !! meta_name e
               = Some (mkModel (meta_name e) (meta_fields e) (meta_options e) ∅).
Proof.
  intros Hnd Hq Hst.
  destruct (definePass_run entities h q) as (h1 & E1 & S1).
  destruct (associatePass_nothing entities h1 (foldl (defineEntity h) q entities))
    as (h2 & E2 & S2).
  { intros c Hc. destruct S1 as [V _]. rewrite V.
    destruct (Hst c Hc) as (e & He & Ha). unfold view. by rewrite He. }
  eexists _, _. split.
  { unfold registerEntities, bindR. rewrite E1, E2. done. }
  cbn [snd]. rewrite models_foldl_defineEntity, Hq. split.
  - rewrite (foldl_insert_size fname (modelOf h)); [by rewrite map_size_empty| done |].
    intros; apply lookup_empty.
  - intros c Hc. destruct (Hst c Hc) as (e & He & Ha). exists e. split; [done|].
    assert (view c h = e) as Hv by (unfold view; by rewrite He).
    assert (meta_name e = fname c) as Hn by (rewrite <- Hv; apply view_name).
    rewrite Hn, (foldl_insert_in fname (modelOf h)) by done.
    unfold modelOf. by rewrite Hv.
Qed.

(** The registrar and a renamed entity.  When no record is stored under
    an entity's own class name (the state [Entity] leaves behind when it is
    given a different explicit name, see [Entity_rename_hides_record]), the
    registrar never reaches the renamed record: pass 1 defines a model
    under the class's own name, so the lookup of pass 2 under that name
    does find a model, but the record looked up for the entity is a new one
    without associations, and no association-creation call is made for the
    entity. *)
Theorem registerEntities_renamed_entity entities c h q :
  c ∈ entities →
  storedMeta c h = None →
  (∃ w1, definePass entities (h, q) = Ok tt w1 ∧ is_Some (models w1.2 !! fname c))
  ∧ ∃ cs, calls (stateOf (registerEntities associate entities (h, q))).2
          = calls q ++ (CallDefine ∘ fname <$> entities) ++ cs
          ∧ Forall (λ call, ∀ k m t, call ≠ CallAssociate c k m t) cs.
Proof.
  intros Hc Hst.
  destruct (definePass_run entities h q) as (h1 & E1 & S1).
  split.
  - eexists. split; [exact E1|]. cbn [snd]. rewrite models_foldl_defineEntity.
    by apply (foldl_insert_is_Some fname (modelOf h)).
  - pose proof (associatePass_run associate entities (h1, foldl (defineEntity h) q entities))
      as (_ & cs & Hcs & Hall).
    exists cs. split.
    + unfold registerEntities, bindR. rewrite E1.
      cbn [snd] in Hcs. rewrite calls_foldl_defineEntity, <- app_assoc in Hcs.
      by destruct (associatePass associate entities _) as [[] w2|msg w2].
    + eapply Forall_impl; [exact Hall|]. cbn [fst].
      intros call (c' & _ & k & ea & Hin & ->) k' m' t' [= -> _ _ _].
      destruct S1 as [V _]. rewrite V in Hin. unfold view in Hin. rewrite Hst in Hin.
      by apply elem_of_nil in Hin.
Qed.

(** *** Pass 2 as one loop over the associations *)









Lemma passWork_sameViews h h' cs : sameViews h h' → passWork h' cs = passWork h cs.
Proof.
  intros [V _]. unfold passWork. induction cs as [|c cs IH]; [done|].
  cbn [mbind list_bind]. by rewrite V, IH.
Qed.





End RegistrarTheorems.

(** ** Decorating a class prototype *)

(** [getMeta] on a class prototype always yields a stored record. *)
Lemma getMeta_ProtoOf_run c h :
  ∃ p i h1,
    getMeta (ProtoOf c) h = Ok (Stored p i, view c h) h1
    ∧ findHolder (metaStores h1) (fid c :: fsupers c) = Some p
    ∧ findEntity (fname c) (default [] (metaStores h1 !! p)) = Some (i, view c h)
    ∧ h1 = setStores h (metaStores h1)
    ∧ (∀ p' i', (p', i') ≠ (p, i) →
         readMeta (Stored p' i') h1 = readMeta (Stored p' i') h)
    ∧ (h1 = h ∨ (readMeta (Stored p i) h = None ∧ view c h = newEntity (fname c))).
Proof.
  unfold getMeta, view, storedMeta, findOrPush. cbn [constructorName protoChain].
  destruct (findHolder (metaStores h) (fid c :: fsupers c)) as [p|] eqn:Hh.
  - destruct (findHolder_Some _ _ _ Hh) as [es Hes]. rewrite Hes. cbn [default id].
    destruct (findEntity (fname c) es) as [[i e]|] eqn:E; cbn [fmap option_fmap option_map snd default id].
    + exists p, i, h. rewrite Hh, Hes. cbn [default id]. rewrite E.
      split_and!; try done; [by rewrite setStores_id|by left].
    + exists p, (length es), (setStores h (<[p := es ++ [newEntity (fname c)]]> (metaStores h))).
      cbn [metaStores setStores]. rewrite lookup_insert_eq. cbn [default id].
      split_and!; try done.
      * rewrite <- Hh. apply findHolder_same_dom. intros x.
        destruct (decide (x = p)) as [->|Hx].
        -- rewrite lookup_insert_eq, Hes. split; by eauto.
        -- by rewrite lookup_insert_ne.
      * rewrite findEntity_app_new, E. by rewrite decide_True.
      * intros p' i' Hne. unfold readMeta. cbn [metaStores setStores].
        destruct (decide (p' = p)) as [->|Hp].
        -- rewrite lookup_insert_eq, Hes. cbn.
           assert (i' ≠ length es) as Hi by congruence.
           destruct (decide (i' < length es)).
           ++ by rewrite lookup_app_l.
           ++ rewrite !lookup_ge_None_2; [done|lia|rewrite length_app; simpl; lia].
        -- by rewrite lookup_insert_ne.
      * right. split; [|done]. unfold readMeta. rewrite Hes. cbn.
        by apply lookup_ge_None_2.
  - exists (fid c), 0, (setStores h (<[fid c := [newEntity (fname c)]]> (metaStores h))).
    cbn [findEntity app length metaStores setStores default id findHolder].
    rewrite lookup_insert_eq. cbn [default id findEntity newEntity meta_name].
    rewrite decide_True by done.
    assert (metaStores h !! fid c = None) as Hnone.
    { cbn [findHolder] in Hh. by destruct (metaStores h !! fid c). }
    split_and!; try done.
    + intros p' i' Hne. unfold readMeta. cbn [metaStores setStores].
      destruct (decide (p' = fid c)) as [->|Hp].
      * rewrite lookup_insert_eq, Hnone. cbn.
        destruct i' as [|i']; [congruence|done].
      * by rewrite lookup_insert_ne.
    + right. split; [|done]. unfold readMeta. by rewrite Hnone.
Qed.

(** Writing [g] through the reference leaves the record findable as long as
    its name stays the class name. *)
Lemma lookup_after_upd c st p i e g :
  findHolder st (fid c :: fsupers c) = Some p →
  findEntity (fname c) (default [] (st !! p)) = Some (i, e) →
  let st' := alter (alter g i) p st in
  (st' !! p ≫= (λ es, es !! i)) = Some (g e)
  ∧ findHolder st' (fid c :: fsupers c) = Some p
  ∧ (meta_name (g e) = fname c →
     findEntity (fname c) (default [] (st' !! p)) = Some (i, g e)).
Proof.
  intros Hh Hf st'. subst st'.
  assert (findHolder (alter (alter g i) p st) (fid c :: fsupers c) = Some p) as Hh'.
  { rewrite <- Hh. apply findHolder_same_dom. intros x. apply lookup_alter_is_Some. }
  destruct (findHolder_Some _ _ _ Hh) as [es Hes]. rewrite Hes in Hf.
  rewrite lookup_alter_eq, Hes. simpl in Hf. simpl. split_and!.
  - rewrite list_lookup_alter_eq. apply findEntity_Some in Hf as [-> _]. done.
  - exact Hh'.
  - intros Hn. by apply findEntity_alter.
Qed.


Lemma getMeta_found c h p i e :
  findHolder (metaStores h) (fid c :: fsupers c) = Some p →
  findEntity (fname c) (default [] (metaStores h !! p)) = Some (i, e) →
  getMeta (ProtoOf c) h = Ok (Stored p i, e) h ∧ storedMeta c h = Some e.
Proof.
  intros Hh Hf. unfold getMeta, storedMeta, findOrPush. cbn [constructorName protoChain].
  by rewrite Hh, Hf.
Qed.

Lemma updMeta_fix p i g e h :
  readMeta (Stored p i) h = Some e → g e = e → updMeta (Stored p i) g h = h.
Proof.
  unfold readMeta, updMeta. intros Hr Hg.
  rewrite alter_id; [apply setStores_id|].
  intros es Hes. rewrite Hes in Hr. simpl in Hr.
  rewrite <- (list_alter_id id es i) at 2 by done.
  apply list_alter_ext; [|done]. intros x Hx. unfold id. congruence.
Qed.

(** The effect of writing [g] to the record of class [c], in a heap [h2]
    that has the stores [getMeta] left. *)
Lemma decorate_run c h p i h1 h2 g :
  findHolder (metaStores h1) (fid c :: fsupers c) = Some p →
  findEntity (fname c) (default [] (metaStores h1 !! p)) = Some (i, view c h) →
  metaStores h2 = metaStores h1 →
  let h' := updMeta (Stored p i) g h2 in
  readMeta (Stored p i) h' = Some (g (view c h))
  ∧ (meta_name (g (view c h)) = fname c →
     getMeta (ProtoOf c) h' = Ok (Stored p i, g (view c h)) h'
     ∧ storedMeta c h' = Some (g (view c h)))
  ∧ assocObjs h' = assocObjs h2 ∧ indexObjs h' = indexObjs h2 ∧ nextLoc h' = nextLoc h2.
Proof.
  intros Hh Hf Hst h'.
  destruct (lookup_after_upd c (metaStores h1) p i (view c h) g Hh Hf) as (Hr & Hh' & Hf').
  subst h'. unfold updMeta, readMeta. cbn [metaStores setStores assocObjs indexObjs nextLoc].
  rewrite Hst. split_and!; try done.
  intros Hn. apply getMeta_found; cbn [metaStores setStores]; [done|by apply Hf'].
Qed.

Lemma assignSlot_Absent {A} (s : Slot A) : assignSlot Absent s = s.
Proof. by destruct s. Qed.

Lemma assignOver_None o : assignOver None o = o.
Proof.
  destruct o as [ca ua ix rest]. unfold assignOver, assignDefineOptions. simpl.
  rewrite !assignSlot_Absent. f_equal. apply (right_id_L ∅ (∪)).
Qed.

Lemma defaultTimestamps_idemp o : defaultTimestamps (defaultTimestamps o) = defaultTimestamps o.
Proof. by destruct o as [[| |ca] [| |ua] ix rest]. Qed.

Lemma Entity_run name options c h :
  ∃ p i h1,
    getMeta (ProtoOf c) h = Ok (Stored p i, view c h) h1
    ∧ Entity name options c h = Ok tt (updMeta (Stored p i) (entityUpdate name options c) h1)
    ∧ findHolder (metaStores h1) (fid c :: fsupers c) = Some p
    ∧ findEntity (fname c) (default [] (metaStores h1 !! p)) = Some (i, view c h).
Proof.
  destruct (getMeta_ProtoOf_run c h) as (p & i & h1 & E & Hh & Hf & _).
  exists p, i, h1. split_and!; try done.
  unfold Entity, bindR, modifyR. by rewrite E.
Qed.

Lemma findEntity_None_intro n es :
  (∀ j e, es !! j = Some e → meta_name e ≠ n) → findEntity n es = None.
Proof.
  induction es as [|x es IH]; intros Hall; [done|]. simpl.
  rewrite decide_False by (by apply (Hall 0)).
  rewrite IH; [done|]. intros j e Hj. by apply (Hall (S j)).
Qed.

Lemma getMeta_storesDistinct c h :
  storesDistinct h → storesDistinct (stateOf (getMeta (ProtoOf c) h)).
Proof.
  intros Hd. unfold getMeta, findOrPush. cbn [constructorName protoChain].
  destruct (findHolder (metaStores h) (fid c :: fsupers c)) as [p|] eqn:Hh.
  - destruct (findHolder_Some _ _ _ Hh) as [es Hes]. rewrite Hes. simpl.
    destruct (findEntity (fname c) es) as [[i e]|] eqn:E; [done|]. simpl.
    intros p' es' Hp'. cbn [stateOf metaStores setStores] in Hp'.
    destruct (decide (p' = p)) as [->|Hne].
    + rewrite lookup_insert_eq in Hp'. inversion Hp'; subst es'.
      rewrite fmap_app. apply NoDup_app. split; [by eapply Hd|]. split; [|apply NoDup_singleton].
      intros n Hn Hn'. apply list_elem_of_singleton in Hn' as ->.
      apply list_elem_of_fmap in Hn as (e & He & Hin).
      apply list_elem_of_lookup in Hin as [j Hj].
      by eapply findEntity_None_lookup.
    + rewrite lookup_insert_ne in Hp' by done. by eapply Hd.
  - intros p' es' Hp'. cbn [stateOf metaStores setStores findEntity app] in Hp'.
    destruct (decide (p' = fid c)) as [->|Hne].
    + rewrite lookup_insert_eq in Hp'. inversion Hp'; subst es'. apply NoDup_singleton.
    + rewrite lookup_insert_ne in Hp' by done. by eapply Hd.
Qed.

(** After [Entity] has been given a name other than the class name, no
    record is stored under the class's own name any more. *)
Lemma Entity_rename_hides_record s options c h :
  storesDistinct h → s ≠ fname c →
  storedMeta c (stateOf (Entity (NameStr s) options c h)) = None.
Proof.
  intros Hd Hs.
  destruct (Entity_run (NameStr s) options c h) as (p & i & h1 & E & -> & Hh & Hf).
  pose proof (getMeta_storesDistinct c h Hd) as Hd1. rewrite E in Hd1. cbn [stateOf] in *.
  destruct (findHolder_Some _ _ _ Hh) as [es Hes]. rewrite Hes in Hf. simpl in Hf.
  destruct (lookup_after_upd c (metaStores h1) p i (view c h)
              (entityUpdate (NameStr s) options c) Hh) as (_ & Hh' & _).
  { by rewrite Hes. }
  unfold storedMeta, updMeta. cbn [metaStores setStores]. rewrite Hh'.
  rewrite lookup_alter_eq, Hes. simpl.
  rewrite findEntity_None_intro; [done|].
  apply findEntity_Some in Hf as [Hi Hname].
  intros j e Hj. destruct (decide (j = i)) as [->|Hne].
  - rewrite list_lookup_alter_eq, Hi in Hj. by inversion Hj; subst e.
  - rewrite list_lookup_alter_ne in Hj by done. intros Hn. apply Hne.
    eapply (NoDup_lookup (meta_name <$> es)); [by eapply Hd1| |].
    + by rewrite list_lookup_fmap, Hj.
    + rewrite list_lookup_fmap, Hi. simpl. congruence.
Qed.

(** C5.  Applying [Entity] twice with no name and no options gives exactly
    the result and the heap that one application gives, and the metadata
    record stored for the class then carries the class's own name. *)
Theorem Entity_twice_is_Entity_once c h :
  let once := Entity NameNone None c h in
  let twice := Entity NameNone None c (stateOf once) in
  twice = once
  ∧ ∃ e, storedMeta c (stateOf twice) = Some e ∧ meta_name e = fname c.
Proof.
  intros once twice. subst once twice.
  destruct (Entity_run NameNone None c h) as (p & i & h1 & E & -> & Hh & Hf).
  cbn [stateOf]. set (g := entityUpdate NameNone None c).
  destruct (decorate_run c h p i h1 h1 g Hh Hf eq_refl) as (Hr & Hfound & _).
  destruct (Hfound eq_refl) as (E' & Hs).
  assert (Entity NameNone None c (updMeta (Stored p i) g h1)
          = Ok tt (updMeta (Stored p i) g h1)) as Htwice.
  { unfold Entity, bindR, modifyR. rewrite E'. fold g. f_equal.
    apply (updMeta_fix _ _ _ _ _ Hr).
    unfold g, entityUpdate, setOptions, setName. cbn [meta_options meta_name meta_fields meta_associations].
    by rewrite !assignOver_None, defaultTimestamps_idemp. }
  rewrite Htwice. split; [done|]. cbn [stateOf]. by eauto.
Qed.

(** ** Entity and the timestamp options *)

Lemma entityUpdate_createdAt name options c e :
  opt_createdAt (meta_options (entityUpdate name options c e))
  = let m := assignSlot (opt_createdAt (suppliedOptions name options))
                        (opt_createdAt (meta_options e)) in
    if isNull m then Has (SBool false) else m.
Proof.
  destruct e as [en ef ea [[| |sc] [| |su] si sr]].
  all: destruct name as [|s|[[| |nc] [| |nu] ni nr]], options as [[[| |oc] [| |ou] oi or]|].
  all: reflexivity.
Qed.

Lemma entityUpdate_updatedAt name options c e :
  opt_updatedAt (meta_options (entityUpdate name options c e))
  = let m := assignSlot (opt_updatedAt (suppliedOptions name options))
                        (opt_updatedAt (meta_options e)) in
    if isNull m then Has (SBool false) else m.
Proof.
  destruct e as [en ef ea [[| |sc] [| |su] si sr]].
  all: destruct name as [|s|[[| |nc] [| |nu] ni nr]], options as [[[| |oc] [| |ou] oi or]|].
  all: reflexivity.
Qed.

Lemma timestampRule_holds stored supplied :
  timestampRule stored supplied
    (let m := assignSlot supplied stored in if isNull m then Has (SBool false) else m).
Proof.
  unfold timestampRule.
  destruct stored, supplied; simpl; split_and!; first [done | by intros; simplify_eq].
Qed.

(** C10, amended.  After [Entity] runs, the stored [createdAt] and
    [updatedAt] are never unset.  Each is [false] when it was set neither
    before the call nor by the options the call itself supplies; a value
    that was already stored, such as the property name written by
    [CreatedDateColumn] or [UpdatedDateColumn], is preserved; and when
    nothing was stored, a value supplied in the options is kept. *)
Theorem Entity_timestamp_defaults name options c h r e h1 :
  getMeta (ProtoOf c) h = Ok (r, e) h1 →
  ∃ e', readMeta r (stateOf (Entity name options c h)) = Some e'
    ∧ timestampRule (opt_createdAt (meta_options e))
                    (opt_createdAt (suppliedOptions name options))
                    (opt_createdAt (meta_options e'))
    ∧ timestampRule (opt_updatedAt (meta_options e))
                    (opt_updatedAt (suppliedOptions name options))
                    (opt_updatedAt (meta_options e')).
Proof.
  intros E.
  destruct (Entity_run name options c h) as (p & i & h1' & E' & -> & Hh & Hf).
  rewrite E in E'. inversion E'; subst. cbn [stateOf].
  destruct (decorate_run c h p i h1' h1' (entityUpdate name options c) Hh Hf eq_refl)
    as (Hr & _).
  eexists. split; [exact Hr|].
  rewrite entityUpdate_createdAt, entityUpdate_updatedAt.
  split; apply timestampRule_holds.
Qed.

(** ** Association decorators *)

Lemma assocGet_assocSet_eq {V} key (v : V) l : assocGet key (assocSet key v l) = Some v.
Proof.
  induction l as [|[k w] l IH]; simpl.
  - by rewrite decide_True.
  - destruct (decide (k = key)) as [->|Hk]; simpl.
    + by rewrite decide_True.
    + by rewrite decide_False.
Qed.


Lemma associationDecorator_run m tf options c key h :
  ∃ p i h1,
    getMeta (ProtoOf c) h = Ok (Stored p i, view c h) h1
    ∧ findHolder (metaStores h1) (fid c :: fsupers c) = Some p
    ∧ findEntity (fname c) (default [] (metaStores h1 !! p)) = Some (i, view c h)
    ∧ assocObjs h1 = assocObjs h
    ∧ let l := optionsLoc options h1 in
      let h2 := stateOf (ensureOptions options h1) in
      metaStores h2 = metaStores h1
      ∧ associationDecorator m tf options (ProtoOf c) key h
        = if throughMissing m (derefOptions l h2)
          then Throw "through property is required for belongs to many association" h2
          else Ok tt (updMeta (Stored p i)
                        (setAssociation key (mkEntityAssociation tf m l))
                        (afterWrite l key h2)).
Proof.
  destruct (getMeta_ProtoOf_run c h) as (p & i & h1 & E & Hh & Hf & Heq & _).
  exists p, i, h1. split_and!; try done; [by rewrite Heq|].
  cbn zeta. split; [by destruct options|].
  destruct m; unfold associationDecorator, HasOne, HasMany, BelongsTo, ManyToMany, bindR;
    rewrite E; destruct options as [l|]; try reflexivity.
  - cbn [ensureOptions]. unfold throughMissing, optionsLoc, stateOf.
    by destruct (isNull (ao_through (derefOptions l h1))).
  - cbn [ensureOptions]. unfold throughMissing, optionsLoc, stateOf.
    by destruct (isNull (ao_through (derefOptions (nextLoc h1) _))).
Qed.


Lemma getMeta_stored c h e :
  storedMeta c h = Some e → ∃ r, getMeta (ProtoOf c) h = Ok (r, e) h.
Proof.
  unfold storedMeta, getMeta, findOrPush. cbn [constructorName protoChain].
  destruct (findHolder (metaStores h) (fid c :: fsupers c)) as [p|]; [|done].
  destruct (findEntity (fname c) (default [] (metaStores h !! p))) as [[i x]|]; [|done].
  intros [= <-]. by eauto.
Qed.

(** C2, amended.  [ManyToMany] with options that name no join entity
    (no options, or options whose [through] is null) throws at decoration
    time.  No association is recorded: the record a lookup for the class
    yields is the same as before, every record that existed is untouched,
    and so are the index objects and every options object that existed.
    The stores themselves are unchanged when the class already had its
    record; when it had none, the call has created the class's empty
    record before it threw. *)
Theorem ManyToMany_without_join_entity tf options c key h :
  (∀ l, options = Some l → isNull (ao_through (derefOptions l h)) = true) →
  let r := ManyToMany tf options (ProtoOf c) key h in
  isThrow r = true
  ∧ view c (stateOf r) = view c h
  ∧ (∀ p i e, readMeta (Stored p i) h = Some e →
       readMeta (Stored p i) (stateOf r) = Some e)
  ∧ (is_Some (storedMeta c h) → metaStores (stateOf r) = metaStores h)
  ∧ (∀ l, l ≠ nextLoc h → assocObjs (stateOf r) !! l = assocObjs h !! l)
  ∧ indexObjs (stateOf r) = indexObjs h
  ∧ (storedMeta c h = None → storedMeta c (stateOf r) = Some (newEntity (fname c))).
Proof.
  intros Hnull r. subst r.
  destruct (getMeta_ProtoOf_run c h) as (p & i & h1 & E & Hh & Hf & Heq & Hframe & Hnew).
  assert (assocObjs h1 = assocObjs h ∧ indexObjs h1 = indexObjs h ∧ nextLoc h1 = nextLoc h)
    as (Ha & Hi & Hn) by (by rewrite Heq).
  assert (view c h1 = view c h) as Hv.
  { destruct (getMeta_found c h1 p i _ Hh Hf) as [_ Hs]. unfold view at 1. by rewrite Hs. }
  assert (∀ p' i' e, readMeta (Stored p' i') h = Some e →
                     readMeta (Stored p' i') h1 = Some e) as Hkeep.
  { intros p' i' e He. destruct (decide ((p', i') = (p, i))) as [[= -> ->]|Hne].
    - destruct Hnew as [->|[Hnone _]]; [done|congruence].
    - by rewrite Hframe. }
  assert (is_Some (storedMeta c h) → metaStores h1 = metaStores h) as Hsame.
  { intros [e He]. destruct (getMeta_stored c h e He) as [r E'].
    rewrite E in E'. by inversion E'. }
  assert (storedMeta c h = None → storedMeta c h1 = Some (newEntity (fname c))) as Hcreated.
  { intros Hnone. destruct (getMeta_found c h1 p i _ Hh Hf) as [_ ->].
    unfold view. by rewrite Hnone. }
  unfold ManyToMany, bindR. rewrite E.
  destruct options as [l|]; cbn [ensureOptions].
  - assert (isNull (ao_through (derefOptions l h1)) = true) as ->.
    { unfold derefOptions. rewrite Ha. by apply Hnull. }
    unfold throwR. cbn [isThrow stateOf]. split_and!; try done.
    intros; by rewrite Ha.
  - match goal with |- context [derefOptions ?l ?h2] =>
      assert (derefOptions l h2 = emptyAssociationOptions) as ->
        by (unfold derefOptions; cbn [assocObjs bumpLoc setAssocObjs];
            by rewrite lookup_insert_eq) end.
    cbn [emptyAssociationOptions ao_through isNull].
    unfold throwR. cbn [isThrow stateOf]. split_and!; try done.
    intros l Hl. cbn [assocObjs bumpLoc setAssocObjs].
    rewrite lookup_insert_ne by congruence. by rewrite Ha.
Qed.

(** ** Index *)

Lemma updMeta_indexArrays r g h :
  indexArrays (updMeta r g h) = indexArrays h ∧ nextArray (updMeta r g h) = nextArray h.
Proof. by destruct r. Qed.

Lemma updMeta_id r h : updMeta r id h = h.
Proof.
  destruct r as [p i|]; [|done]. unfold updMeta.
  rewrite alter_id; [apply setStores_id|].
  intros es _. by apply list_alter_id.
Qed.

Lemma opt_indexes_installIndexes e h :
  opt_indexes (meta_options (installIndexes e h e)) = Has (indexArrayOf e h).
Proof.
  unfold installIndexes, indexArrayOf.
  by destruct (opt_indexes (meta_options e)) eqn:E; cbn; rewrite ?E.
Qed.

Lemma installIndexes_parts e h m :
  meta_name (installIndexes e h m) = meta_name m
  ∧ meta_fields (installIndexes e h m) = meta_fields m
  ∧ meta_associations (installIndexes e h m) = meta_associations m
  ∧ opt_createdAt (meta_options (installIndexes e h m)) = opt_createdAt (meta_options m)
  ∧ opt_updatedAt (meta_options (installIndexes e h m)) = opt_updatedAt (meta_options m)
  ∧ opt_rest (meta_options (installIndexes e h m)) = opt_rest (meta_options m).
Proof. unfold installIndexes. by destruct (isNull (opt_indexes (meta_options e))). Qed.

(** [Index] on the record of class [c]: the heap [h3] has the new index
    objects and arrays, and the record is given the array when it had none. *)
Lemma Index_run options c key h :
  ∃ p i h1 h3,
    getMeta (ProtoOf c) h = Ok (Stored p i, view c h) h1
    ∧ findHolder (metaStores h1) (fid c :: fsupers c) = Some p
    ∧ findEntity (fname c) (default [] (metaStores h1 !! p)) = Some (i, view c h)
    ∧ metaStores h3 = metaStores h1
    ∧ assocObjs h3 = assocObjs h
    ∧ indexObjs h3 = indexObjsAfter options key (view c h) h
    ∧ nextLoc h3 = match foundIndex options (view c h) h with
                   | None => Pos.succ (nextLoc h)
                   | Some _ => nextLoc h
                   end
    ∧ indexArrays h3
      = <[indexArrayOf (view c h) h
          := indexesOf (meta_options (view c h)) h ++ [indexLoc options (view c h) h]]>
          (indexArrays h)
    ∧ Index options (ProtoOf c) key h
      = Ok tt (updMeta (Stored p i) (installIndexes (view c h) h) h3).
Proof.
  destruct (getMeta_ProtoOf_run c h) as (p & i & h1 & E & Hh & Hf & Heq & _).
  assert (assocObjs h1 = assocObjs h ∧ indexObjs h1 = indexObjs h ∧ nextLoc h1 = nextLoc h
          ∧ indexArrays h1 = indexArrays h ∧ nextArray h1 = nextArray h)
    as (Ha & Hi & Hn & Hr & Hna) by (by rewrite Heq).
  exists p, i, h1.
  unfold Index, bindR. rewrite E.
  unfold indexLoc, indexObjsAfter, foundIndex, indexesOf, indexArrayOf, installIndexes,
    ensureIndexes.
  destruct (opt_indexes (meta_options (view c h))) as [| |a] eqn:Eo; cbn [isNull].
  1,2: exists (setIndexArrays
                 (bumpArray (bumpLoc (setIndexObjs h1
                    (alter clean (nextLoc h1)
                       (<[nextLoc h1 := newIndexObject options key]> (indexObjs h1))))))
                 (<[nextArray h1 := [nextLoc h1]]> (indexArrays h1))).
  1,2: unfold newIndexObject;
       destruct (io_name (default emptyIIndexOptions options)) as [| |n];
       repeat (progress (unfold derefIndexes, updMeta, setStores, setIndexArrays, setIndexObjs,
                 bumpLoc, bumpArray, pushIndex, allocIndex, modifyIndex, modifyR;
               cbn [metaStores assocObjs indexObjs indexArrays nextLoc nextArray
                    default id app findIndex];
               rewrite ?lookup_insert_eq, ?Hna, ?Hi, ?Hr, ?Hn, ?Ha));
       rewrite insert_insert_eq; by split_and!.
  assert (derefIndexes a h1 = derefIndexes a h) as Hda
    by (unfold derefIndexes; by rewrite Hr).
  rewrite Hda, Hi.
  destruct (match io_name (default emptyIIndexOptions options) with
            | Has n => findIndex n (derefIndexes a h) (indexObjs h)
            | _ => None
            end) as [l|] eqn:F; cbn [default id].
  - exists (setIndexArrays
              (setIndexObjs h1 (alter clean l (alter (pushField key) l (indexObjs h1))))
              (<[a := derefIndexes a h ++ [l]]> (indexArrays h1))).
    rewrite updMeta_id.
    repeat (progress (unfold derefIndexes, setIndexArrays, setIndexObjs, pushIndex,
              modifyIndex, modifyR, retR;
            cbn [metaStores assocObjs indexObjs indexArrays nextLoc nextArray];
            rewrite ?Hna, ?Hi, ?Hr, ?Hn, ?Ha)).
    by split_and!.
  - exists (setIndexArrays
              (bumpLoc (setIndexObjs h1
                 (alter clean (nextLoc h1)
                    (<[nextLoc h1 := newIndexObject options key]> (indexObjs h1)))))
              (<[a := derefIndexes a h ++ [nextLoc h1]]> (indexArrays h1))).
    rewrite updMeta_id.
    repeat (progress (unfold derefIndexes, setIndexArrays, setIndexObjs, bumpLoc,
              newIndexObject, pushIndex, allocIndex, modifyIndex, modifyR;
            cbn [metaStores assocObjs indexObjs indexArrays nextLoc nextArray];
            rewrite ?Hna, ?Hi, ?Hr, ?Hn, ?Ha)).
    by split_and!.
Qed.

(** What a lookup for the class yields after [Index], and what its index
    list reads. *)
Lemma Index_view options c key h :
  ∃ h', Index options (ProtoOf c) key h = Ok tt h'
    ∧ storedMeta c h' = Some (view c h')
    ∧ view c h' = installIndexes (view c h) h (view c h)
    ∧ indexesOf (meta_options (view c h')) h'
      = indexesOf (meta_options (view c h)) h ++ [indexLoc options (view c h) h]
    ∧ indexObjs h' = indexObjsAfter options key (view c h) h
    ∧ nextLoc h' = match foundIndex options (view c h) h with
                   | None => Pos.succ (nextLoc h)
                   | Some _ => nextLoc h
                   end.
Proof.
  destruct (Index_run options c key h)
    as (p & i & h1 & h3 & E & Hh & Hf & Hst & Ha3 & Hi3 & Hn3 & Hr3 & ->).
  destruct (decorate_run c h p i h1 h3 (installIndexes (view c h) h) Hh Hf Hst)
    as (_ & Hfound & _ & Hi & Hn).
  destruct (installIndexes_parts (view c h) h (view c h)) as (Pn & _).
  destruct Hfound as (_ & Hs); [by rewrite Pn, view_name|].
  eexists. split; [done|].
  assert (view c (updMeta (Stored p i) (installIndexes (view c h) h) h3)
          = installIndexes (view c h) h (view c h)) as Hv.
  { unfold view at 1. by rewrite Hs. }
  rewrite Hv. split_and!; [done|done| |by rewrite Hi|by rewrite Hn].
  unfold indexesOf at 1. rewrite opt_indexes_installIndexes.
  unfold derefIndexes. rewrite (proj1 (updMeta_indexArrays _ _ _)), Hr3.
  by rewrite lookup_insert_eq.
Qed.

(** ** Frame of the decorators *)





Lemma defaultTimestamps_rest o :
  opt_rest (defaultTimestamps o) = opt_rest o
  ∧ opt_indexes (defaultTimestamps o) = opt_indexes o.
Proof. by destruct o as [[| |ca] [| |ua] ix rest]. Qed.

Lemma entityUpdate_keeps name options c e :
  let e' := entityUpdate name options c e in
  meta_fields e' = meta_fields e
  ∧ meta_associations e' = meta_associations e
  ∧ (∀ k v, opt_rest (meta_options e) !! k = Some v →
            opt_rest (meta_options e') !! k = Some v)
  ∧ (∀ v, opt_indexes (meta_options e) = Has v → opt_indexes (meta_options e') = Has v).
Proof.
  cbn zeta. unfold entityUpdate. cbn [setOptions setName meta_fields meta_associations meta_options].
  split; [done|]. split; [done|].
  destruct (defaultTimestamps_rest
              (assignOver match name, options with
                          | NameObj o, None => Some (assignDefineOptions o (meta_options e))
                          | _, _ => options
                          end (meta_options e))) as [-> ->].
  unfold assignOver, assignDefineOptions. cbn [opt_rest opt_indexes]. split.
  - intros k v Hk. by apply lookup_union_Some_l.
  - by intros v ->.
Qed.






(** ** The [as] of the stored associations *)









(** ** Compound indexes *)

Lemma findIndex_ext n ls objs objs' :
  (∀ l, l ∈ ls → namedIn objs' n l = namedIn objs n l) →
  findIndex n ls objs' = findIndex n ls objs.
Proof.
  induction ls as [|l ls IH]; intros Hext; [done|].
  pose proof (Hext l ltac:(by left)) as Hl. unfold namedIn in Hl.
  cbn [findIndex]. rewrite IH by (intros; apply Hext; by right).
  destruct (objs' !! l) as [o'|], (objs !! l) as [o|]; try done.
  - destruct (decide (idx_name o' = Has n)), (decide (idx_name o = Has n)); try done.
    + by rewrite bool_decide_eq_true_2, bool_decide_eq_false_2 in Hl.
    + by rewrite bool_decide_eq_false_2, bool_decide_eq_true_2 in Hl.
  - destruct (decide (idx_name o' = Has n)); [|done].
    by rewrite bool_decide_eq_true_2 in Hl.
  - destruct (decide (idx_name o = Has n)); [|done].
    by rewrite bool_decide_eq_true_2 in Hl.
Qed.

Lemma findIndex_app n ls ls' objs :
  findIndex n (ls ++ ls') objs
  = match findIndex n ls objs with
    | Some l => Some l
    | None => findIndex n ls' objs
    end.
Proof.
  induction ls as [|l ls IH]; [done|]. cbn [app findIndex]. rewrite IH.
  destruct (objs !! l) as [o|]; [|done]. by destruct (decide (idx_name o = Has n)).
Qed.

Lemma findIndex_Some n ls objs l :
  findIndex n ls objs = Some l → l ∈ ls ∧ namedIn objs n l = true.
Proof.
  induction ls as [|x ls IH]; [done|]. cbn [findIndex]. unfold namedIn in *.
  destruct (objs !! x) as [o|] eqn:Ex.
  - destruct (decide (idx_name o = Has n)) as [Ho|Ho].
    + intros [= <-]. split; [by left|]. rewrite Ex. by apply bool_decide_eq_true_2.
    + intros H. destruct (IH H). split; [by right|done].
  - intros H. destruct (IH H). split; [by right|done].
Qed.

Lemma findIndex_None n ls objs l :
  findIndex n ls objs = None → l ∈ ls → namedIn objs n l = false.
Proof.
  induction ls as [|x ls IH]; intros H Hl; [by apply elem_of_nil in Hl|].
  cbn [findIndex] in H. unfold namedIn in *.
  destruct (objs !! x) as [o|] eqn:Ex.
  - destruct (decide (idx_name o = Has n)) as [Ho|Ho]; [done|].
    apply elem_of_cons in Hl as [->|Hl]; [|by apply IH].
    rewrite Ex. by apply bool_decide_eq_false_2.
  - apply elem_of_cons in Hl as [->|Hl]; [|by apply IH]. by rewrite Ex.
Qed.

Lemma findIndex_last n ls objs l :
  (∀ x, x ∈ ls → namedIn objs n x = true → x = l) →
  namedIn objs n l = true →
  findIndex n (ls ++ [l]) objs = Some l.
Proof.
  intros Hall Hl. induction ls as [|x ls IH].
  - cbn [app findIndex]. unfold namedIn in Hl. destruct (objs !! l) as [o|]; [|done].
    apply bool_decide_eq_true in Hl. by rewrite decide_True.
  - cbn [app findIndex]. rewrite IH by (intros; apply Hall; [by right|done]).
    pose proof (Hall x ltac:(by left)) as Hx. unfold namedIn in Hx.
    destruct (objs !! x) as [o|]; [|done].
    destruct (decide (idx_name o = Has n)); [|done].
    rewrite Hx; [done|]. by apply bool_decide_eq_true_2.
Qed.

Lemma namedIn_Some objs n l o :
  objs !! l = Some o → (namedIn objs n l = true ↔ idx_name o = Has n).
Proof. intros E. unfold namedIn. rewrite E. apply bool_decide_eq_true. Qed.

Lemma idxInv_other n fs ixs objs objs' l2 :
  idxInv n fs ixs objs →
  (∀ x, x ∈ ixs → namedIn objs' n x = namedIn objs n x) →
  (∀ x o, objs' !! x = Some o → idx_name o = Has n → objs !! x = Some o) →
  namedIn objs' n l2 = false →
  idxInv n fs (ixs ++ [l2]) objs'.
Proof.
  intros [Hin Hnone] Hext Hold Hl2.
  assert (findIndex n (ixs ++ [l2]) objs' = findIndex n ixs objs) as Hfind.
  { rewrite findIndex_app, (findIndex_ext n ixs objs objs') by done.
    destruct (findIndex n ixs objs); [done|]. cbn [findIndex].
    unfold namedIn in Hl2. destruct (objs' !! l2) as [o|]; [|done].
    apply bool_decide_eq_false in Hl2. by rewrite decide_False. }
  split.
  - intros l o Hl Ho Hn. rewrite Hfind.
    assert (l ≠ l2) as Hne.
    { intros ->. apply (namedIn_Some _ n) in Ho. apply Ho in Hn. congruence. }
    apply Hin; [|by eapply Hold|done].
    apply elem_of_app in Hl as [Hl|Hl]; [done|].
    apply list_elem_of_singleton in Hl. done.
  - rewrite Hfind. exact Hnone.
Qed.

Lemma idxInv_found n fs ixs objs l key :
  idxInv n fs ixs objs →
  findIndex n ixs objs = Some l →
  idxInv n (fs ++ [key]) (ixs ++ [l]) (alter clean l (alter (pushField key) l objs)).
Proof.
  intros [Hin Hnone] Hf.
  destruct (findIndex_Some _ _ _ _ Hf) as [Hl Hnamed].
  unfold namedIn in Hnamed. destruct (objs !! l) as [ol|] eqn:El; [|done].
  apply bool_decide_eq_true in Hnamed.
  destruct (Hin l ol Hl El Hnamed) as [Hfs _].
  set (objs' := alter clean l (alter (pushField key) l objs)).
  assert (objs' !! l = Some (clean (pushField key ol))) as El'.
  { unfold objs'. by rewrite !lookup_alter_eq, El. }
  assert (∀ x, x ≠ l → objs' !! x = objs !! x) as Hother.
  { intros x Hx. unfold objs'. by rewrite !lookup_alter_ne by done. }
  assert (∀ x, namedIn objs' n x = namedIn objs n x) as Hext.
  { intros x. destruct (decide (x = l)) as [->|Hx].
    - unfold namedIn. rewrite El', El. cbn [clean pushField idx_name]. by rewrite Hnamed.
    - unfold namedIn. by rewrite Hother. }
  assert (findIndex n (ixs ++ [l]) objs' = Some l) as Hfind.
  { by rewrite findIndex_app, (findIndex_ext n ixs objs objs'), Hf. }
  split; [|by rewrite Hfind].
  intros x o Hx Ho Hn. destruct (decide (x = l)) as [->|Hne].
  - rewrite El' in Ho. inversion Ho; subst o. cbn [clean pushField idx_fields].
    by rewrite Hfs.
  - exfalso. rewrite Hother in Ho by done.
    assert (x ∈ ixs) as Hx'.
    { apply elem_of_app in Hx as [?|Hx]; [done|]. by apply list_elem_of_singleton in Hx. }
    destruct (Hin x o Hx' Ho Hn) as [_ Hfx]. congruence.
Qed.

Lemma idxInv_new n fs ixs objs l new key :
  idxInv n fs ixs objs →
  findIndex n ixs objs = None →
  idx_name (clean new) = Has n →
  idx_fields new = [key] →
  idxInv n (fs ++ [key]) (ixs ++ [l]) (alter clean l (<[l := new]> objs)).
Proof.
  intros [Hin Hnone] Hf Hname Hfields. rewrite (Hnone Hf). cbn [app].
  set (objs' := alter clean l (<[l := new]> objs)).
  assert (objs' !! l = Some (clean new)) as El'.
  { unfold objs'. by rewrite lookup_alter_eq, lookup_insert_eq. }
  assert (∀ x, x ≠ l → objs' !! x = objs !! x) as Hother.
  { intros x Hx. unfold objs'. by rewrite lookup_alter_ne, lookup_insert_ne by done. }
  assert (∀ x, x ∈ ixs → namedIn objs' n x = true → x = l) as Honly.
  { intros x Hx Hn. destruct (decide (x = l)) as [|Hne]; [done|].
    unfold namedIn in Hn. rewrite Hother in Hn by done.
    pose proof (findIndex_None _ _ _ x Hf Hx) as Hx'. unfold namedIn in Hx'. congruence. }
  assert (findIndex n (ixs ++ [l]) objs' = Some l) as Hfind.
  { apply findIndex_last; [done|]. unfold namedIn. rewrite El'.
    by apply bool_decide_eq_true_2. }
  split; [|by rewrite Hfind].
  intros x o Hx Ho Hn.
  assert (x = l) as ->.
  { apply elem_of_app in Hx as [Hx|Hx]; [|by apply list_elem_of_singleton in Hx].
    apply Honly; [done|]. by apply (namedIn_Some _ _ _ o). }
  rewrite El' in Ho. inversion Ho; subst o. by cbn [clean idx_fields].
Qed.

Lemma cleanSlot_Has {A} (s : Slot A) a : cleanSlot s = Has a ↔ s = Has a.
Proof. by destruct s. Qed.

Lemma idxInv_push_other n fs ixs objs l2 o2 key :
  idxInv n fs ixs objs →
  objs !! l2 = Some o2 → idx_name o2 ≠ Has n →
  idxInv n fs (ixs ++ [l2]) (alter clean l2 (alter (pushField key) l2 objs)).
Proof.
  intros Hinv E2 Hn2.
  set (objs' := alter clean l2 (alter (pushField key) l2 objs)).
  assert (objs' !! l2 = Some (clean (pushField key o2))) as E2'.
  { unfold objs'. by rewrite !lookup_alter_eq, E2. }
  assert (∀ x, x ≠ l2 → objs' !! x = objs !! x) as Hother.
  { intros x Hx. unfold objs'. by rewrite !lookup_alter_ne by done. }
  assert (namedIn objs' n l2 = false) as Hl2.
  { unfold namedIn. rewrite E2'. apply bool_decide_eq_false_2.
    cbn [clean pushField idx_name]. by rewrite cleanSlot_Has. }
  apply (idxInv_other n fs ixs objs); try done.
  - intros x _. destruct (decide (x = l2)) as [->|Hx].
    + rewrite Hl2. unfold namedIn. rewrite E2. symmetry. by apply bool_decide_eq_false_2.
    + unfold namedIn. by rewrite Hother.
  - intros x o Ho Hn. destruct (decide (x = l2)) as [->|Hx].
    + apply (namedIn_Some _ n) in Ho. apply Ho in Hn. congruence.
    + by rewrite <- Hother.
Qed.

Lemma idxInv_alloc_other n fs ixs objs nl new :
  idxInv n fs ixs objs →
  objs !! nl = None → idx_name (clean new) ≠ Has n →
  idxInv n fs (ixs ++ [nl]) (alter clean nl (<[nl := new]> objs)).
Proof.
  intros Hinv Enl Hnew.
  set (objs' := alter clean nl (<[nl := new]> objs)).
  assert (objs' !! nl = Some (clean new)) as El'.
  { unfold objs'. by rewrite lookup_alter_eq, lookup_insert_eq. }
  assert (∀ x, x ≠ nl → objs' !! x = objs !! x) as Hother.
  { intros x Hx. unfold objs'. by rewrite lookup_alter_ne, lookup_insert_ne by done. }
  assert (namedIn objs' n nl = false) as Hnl.
  { unfold namedIn. rewrite El'. by apply bool_decide_eq_false_2. }
  apply (idxInv_other n fs ixs objs); try done.
  - intros x _. destruct (decide (x = nl)) as [->|Hx].
    + rewrite Hnl. unfold namedIn. by rewrite Enl.
    + unfold namedIn. by rewrite Hother.
  - intros x o Ho Hn. destruct (decide (x = nl)) as [->|Hx].
    + apply (namedIn_Some _ n) in Ho. apply Ho in Hn. congruence.
    + by rewrite <- Hother.
Qed.

Lemma indexHeapOk_fresh h : indexHeapOk h → indexObjs h !! nextLoc h = None.
Proof.
  intros Hok. destruct (indexObjs h !! nextLoc h) as [o|] eqn:E; [|done].
  assert (nextLoc h < nextLoc h)%positive by (apply Hok; by exists o). lia.
Qed.

Lemma Index_step c n fs options key h :
  indexHeapOk h →
  idxInv n fs (indexesOf (meta_options (view c h)) h) (indexObjs h) →
  ∃ h', Index options (ProtoOf c) key h = Ok tt h'
    ∧ indexHeapOk h'
    ∧ idxInv n (if namesIndex n options then fs ++ [key] else fs)
        (indexesOf (meta_options (view c h')) h') (indexObjs h')
    ∧ storedMeta c h' = Some (view c h').
Proof.
  intros Hok Hinv.
  destruct (Index_view options c key h) as (h' & E & Hs & _ & Hix & Hi & Hn).
  exists h'. split; [done|]. rewrite Hix, Hi. split_and!.
  - intros x. rewrite Hi, Hn. unfold indexObjsAfter.
    destruct (foundIndex options (view c h) h) as [l0|].
    + rewrite !lookup_alter_is_Some. apply Hok.
    + rewrite lookup_alter_is_Some. destruct (decide (x = nextLoc h)) as [->|Hx]; [lia|].
      rewrite lookup_insert_ne by done. intros Hx'. apply Hok in Hx'. lia.
  - unfold indexLoc, indexObjsAfter, foundIndex, namesIndex, newIndexObject.
    destruct (io_name (default emptyIIndexOptions options)) as [| |m] eqn:En; cbn [default].
    + rewrite bool_decide_eq_false_2 by done.
      by apply idxInv_alloc_other; [|apply indexHeapOk_fresh|].
    + rewrite bool_decide_eq_false_2 by done.
      by apply idxInv_alloc_other; [|apply indexHeapOk_fresh|].
    + destruct (decide (m = n)) as [->|Hmn].
      * rewrite bool_decide_eq_true_2 by done.
        destruct (findIndex n (indexesOf (meta_options (view c h)) h) (indexObjs h))
          as [l0|] eqn:F; cbn [default].
        -- by apply idxInv_found.
        -- by apply idxInv_new.
      * rewrite bool_decide_eq_false_2 by congruence.
        destruct (findIndex m (indexesOf (meta_options (view c h)) h) (indexObjs h))
          as [l0|] eqn:F; cbn [default].
        -- destruct (findIndex_Some _ _ _ _ F) as [_ Hnamed].
           unfold namedIn in Hnamed. destruct (indexObjs h !! l0) as [o0|] eqn:E0; [|done].
           apply bool_decide_eq_true in Hnamed.
           eapply idxInv_push_other; [done|exact E0|]. rewrite Hnamed. congruence.
        -- apply idxInv_alloc_other; [done|by apply indexHeapOk_fresh|].
           cbn [clean readSlot cleanSlot idx_name]. congruence.
  - done.
Qed.

Lemma decorateIndexes_run c n steps fs h :
  indexHeapOk h →
  idxInv n fs (indexesOf (meta_options (view c h)) h) (indexObjs h) →
  ∃ h', decorateIndexes c steps h = Ok tt h'
    ∧ idxInv n (fs ++ keysNamed n steps)
        (indexesOf (meta_options (view c h')) h') (indexObjs h')
    ∧ (steps ≠ [] → storedMeta c h' = Some (view c h')).
Proof.
  revert fs h. induction steps as [|[options key] steps IH]; intros fs h Hok Hinv.
  - exists h. cbn [keysNamed]. rewrite app_nil_r. by split_and!.
  - destruct (Index_step c n fs options key h Hok Hinv) as (h1 & E1 & Hok1 & Hinv1 & Hs1).
    destruct (IH _ h1 Hok1 Hinv1) as (h' & E' & Hinv' & Hs').
    exists h'. split_and!.
    + cbn [decorateIndexes]. unfold bindR. by rewrite E1.
    + cbn [keysNamed]. destruct (namesIndex n options); [|done].
      by rewrite <- app_assoc in Hinv'.
    + intros _. destruct steps as [|s steps]; [|by apply Hs'].
      cbn [decorateIndexes] in E'. unfold retR in E'. by inversion E'; subst.
Qed.

(** C3.  Starting from a class that has no index named [n] yet, after any
    run of [Index] decorations on its properties the index object stored
    under the name [n] (every listed index object of that name, and the one
    a search by name returns) has as its [fields] exactly the names of the
    properties that were decorated with the name [n], in declaration
    order.  Decorations with other names, or without a name, may be
    interleaved. *)
Theorem Index_same_name_accumulates c n steps h :
  indexHeapOk h →
  findIndex n (indexesOf (meta_options (view c h)) h) (indexObjs h) = None →
  ∃ h', decorateIndexes c steps h = Ok tt h'
    ∧ (∀ l o, l ∈ indexesOf (meta_options (view c h')) h' →
              indexObjs h' !! l = Some o → idx_name o = Has n →
              idx_fields o = keysNamed n steps)
    ∧ (keysNamed n steps ≠ [] →
       ∃ l o, findIndex n (indexesOf (meta_options (view c h')) h') (indexObjs h') = Some l
              ∧ indexObjs h' !! l = Some o
              ∧ idx_name o = Has n
              ∧ idx_fields o = keysNamed n steps
              ∧ storedMeta c h' = Some (view c h')).
Proof.
  intros Hok Hnone.
  destruct (decorateIndexes_run c n steps [] h Hok) as (h' & E & [Hin Hempty] & Hs).
  { split; [|done]. intros l o Hl Ho Hn. exfalso.
    pose proof (findIndex_None _ _ _ l Hnone Hl) as Hf.
    apply (namedIn_Some _ n) in Ho. apply Ho in Hn. congruence. }
  cbn [app] in *. exists h'. split; [done|]. split.
  - intros l o Hl Ho Hn. by destruct (Hin l o Hl Ho Hn).
  - intros Hkeys.
    destruct (findIndex n (indexesOf (meta_options (view c h')) h') (indexObjs h'))
      as [l|] eqn:F; [|by destruct (Hkeys (Hempty eq_refl))].
    destruct (findIndex_Some _ _ _ _ F) as [Hl Hnamed].
    unfold namedIn in Hnamed. destruct (indexObjs h' !! l) as [o|] eqn:El; [|done].
    apply bool_decide_eq_true in Hnamed.
    exists l, o. split_and!; try done.
    + by destruct (Hin l o Hl El Hnamed).
    + apply Hs. intros ->. by apply Hkeys.
Qed.

(** ** The claims at concrete inputs *)



(** C2 fails as stated: on a class that has no metadata yet, the call
    throws, but [getMeta] has run first and has stored the class's (empty)
    record. *)
Lemma ManyToMany_without_through_creates_record :
  let r := ManyToMany (λ _, exPost) None (ProtoOf exUser) "posts" emptyHeap in
  isThrow r = true
  ∧ metaStores emptyHeap !! fid exUser = None
  ∧ metaStores (stateOf r) !! fid exUser = Some [newEntity "User"].
Proof. by vm_compute. Qed.

(** [posts] is declared without options on a class that already has a record. *)
Lemma ManyToMany_without_join_entity_witness :
  let r := ManyToMany (λ _, exPost) None (ProtoOf exUser) "posts" exHeapUserHasPost in
  isThrow r = true
  ∧ view exUser (stateOf r) = view exUser exHeapUserHasPost
  ∧ (∀ p i e, readMeta (Stored p i) exHeapUserHasPost = Some e →
       readMeta (Stored p i) (stateOf r) = Some e)
  ∧ (is_Some (storedMeta exUser exHeapUserHasPost) →
       metaStores (stateOf r) = metaStores exHeapUserHasPost)
  ∧ (∀ l, l ≠ nextLoc exHeapUserHasPost →
       assocObjs (stateOf r) !! l = assocObjs exHeapUserHasPost !! l)
  ∧ indexObjs (stateOf r) = indexObjs exHeapUserHasPost
  ∧ (storedMeta exUser exHeapUserHasPost = None →
       storedMeta exUser (stateOf r) = Some (newEntity (fname exUser))).
Proof.
  apply (ManyToMany_without_join_entity (λ _, exPost) None exUser "posts" exHeapUserHasPost).
  intros l Hl. discriminate Hl.
Defined.

(** C6 fails as stated in three ways: two entities with the same class
    name share one handle; an entity whose stored name is ['users'] gets
    its handle under the class name; and models the engine already held are
    part of the returned mapping. *)
Lemma registerEntities_handles_not_one_per_stored_name :
  size <$> returned (registerEntities lenientEngine [exUser; exOtherUser]
                       (exHeapTwoUsers, noModels)) = Some 1
  ∧ (meta_name <$> readMeta (Stored 1 0) exHeapUsersTable = Some "users"
     ∧ (λ ms : gmap string Model, (model_name <$> ms !! "users", model_name <$> ms !! "User"))
         <$> returned (registerEntities lenientEngine [exUser] (exHeapUsersTable, noModels))
       = Some (None, Some "User"))
  ∧ size <$> returned (registerEntities lenientEngine [exUser]
                         (exHeapTwoUsers, exLegacyModels)) = Some 2.
Proof. by vm_compute. Qed.

(** [User] and [Post], each with one column, registered together. *)
Lemma registerEntities_one_handle_per_entity_witness :
  NoDup (fname <$> [exUser; exPost])
  ∧ ∃ ms w', registerEntities lenientEngine [exUser; exPost] (exHeapUserAndPost, noModels)
             = Ok ms w'
    ∧ size ms = length [exUser; exPost]
    ∧ ∀ c, c ∈ [exUser; exPost] →
        ∃ e, storedMeta c exHeapUserAndPost = Some e
             ∧ ms !! meta_name e
               = Some (mkModel (meta_name e) (meta_fields e) (meta_options e) ∅).
Proof.
  assert (NoDup (fname <$> [exUser; exPost])) as Hnd.
  { vm_compute. apply NoDup_cons. split; [|apply NoDup_singleton].
    intros H%list_elem_of_singleton. discriminate. }
  split; [exact Hnd|].
  apply (registerEntities_one_handle_per_entity lenientEngine [exUser; exPost]
           exHeapUserAndPost noModels Hnd eq_refl).
  intros c Hc. apply elem_of_cons in Hc as [->|Hc].
  - eexists. split; vm_compute; reflexivity.
  - apply list_elem_of_singleton in Hc as ->. eexists. split; vm_compute; reflexivity.
Defined.


(** The same happens with the [indexes] array: [User] and [Post] were given
    one array by [Entity]; [Index] on a property of [User] pushes onto it,
    and the index list that the record of [Post] reads changes, the record
    itself being the same. *)
Lemma shared_index_array_changes_other_record :
  let h' := stateOf (Index None (ProtoOf exUser) "email" exHeapSharedIndexes) in
  view exPost h' = view exPost exHeapSharedIndexes
  ∧ indexesOf (meta_options (view exPost exHeapSharedIndexes)) exHeapSharedIndexes = []
  ∧ indexesOf (meta_options (view exPost h')) h' = [1%positive].
Proof. by vm_compute. Qed.


(** C8, at the failing input: [User] declares [post] and is decorated with
    [@Entity('users')]; [User] and [Post] are registered on an engine
    without models.  The record renamed to ['users'] holds the declared
    association, but [getMeta] searches by class name and does not find it:
    pass 1 defines an empty model under the class name [User] and none
    under ['users']; the lookup of pass 2 under the class name finds that
    model (the claim says it finds none), and no association call is made,
    because the record looked up for [User] is a new, empty one. *)
Lemma renamed_entity_lookup_finds_model :
  (meta_name <$> readMeta (Stored 1 0) exHeapRenamedUser = Some "users"
   ∧ (λ e, fst <$> meta_associations e) <$> readMeta (Stored 1 0) exHeapRenamedUser
     = Some ["post"]
   ∧ storedAs exUser "post" exHeapRenamedUser = None)
  ∧ (λ w : World, model_name <$> models w.2 !! fname exUser)
      (stateOf (definePass [exUser; exPost] (exHeapRenamedUser, noModels)))
    = Some "User"
  ∧ (λ ms : gmap string Model,
       (model_attributes <$> ms !! "User", model_props <$> ms !! "User",
        model_name <$> ms !! "users"))
      <$> returned (registerEntities lenientEngine [exUser; exPost]
                      (exHeapRenamedUser, noModels))
    = Some (Some ∅, Some ∅, None)
  ∧ calls (stateOf (registerEntities lenientEngine [exUser; exPost]
                      (exHeapRenamedUser, noModels))).2
    = [CallDefine "User"; CallDefine "Post"].
Proof. by vm_compute. Qed.

(** [User], decorated with [@Entity('users')], registered together with [Post]. *)
Lemma registerEntities_renamed_entity_witness :
  exUser ∈ [exUser; exPost]
  ∧ storedMeta exUser exHeapRenamedUser = None
  ∧ (∃ w1, definePass [exUser; exPost] (exHeapRenamedUser, noModels) = Ok tt w1
           ∧ is_Some (models w1.2 !! fname exUser))
  ∧ ∃ cs, calls (stateOf (registerEntities lenientEngine [exUser; exPost]
                            (exHeapRenamedUser, noModels))).2
          = calls noModels ++ (CallDefine ∘ fname <$> [exUser; exPost]) ++ cs
          ∧ Forall (λ call, ∀ k m t, call ≠ CallAssociate exUser k m t) cs.
Proof.
  assert (exUser ∈ [exUser; exPost]) as Hin by (by left).
  assert (storedMeta exUser exHeapRenamedUser = None) as Hst by (by vm_compute).
  split; [exact Hin|]. split; [exact Hst|].
  exact (registerEntities_renamed_entity lenientEngine [exUser; exPost] exUser
           exHeapRenamedUser noModels Hin Hst).
Defined.



(** C10 fails as stated: on a class whose [createdAt] was not set, [Entity]
    called with [{ createdAt: 'created' }] stores ['created'], not
    [false]. *)
Lemma Entity_keeps_supplied_createdAt :
  opt_createdAt (meta_options (view exUser emptyHeap)) = Absent
  ∧ (opt_createdAt ∘ meta_options)
      <$> storedMeta exUser (stateOf (Entity NameNone (Some exCreatedAtOptions) exUser emptyHeap))
    = Some (Has (SStr "created")).
Proof. by vm_compute. Qed.

(** [@Entity()] on a class whose [createdOn] is a [CreatedDateColumn]. *)
Lemma Entity_timestamp_defaults_witness :
  let h := stateOf (CreatedDateColumn (ProtoOf exUser) "createdOn" emptyHeap) in
  getMeta (ProtoOf exUser) h = Ok (Stored 1 0, view exUser h) h
  ∧ ∃ e', readMeta (Stored 1 0) (stateOf (Entity NameNone None exUser h)) = Some e'
    ∧ timestampRule (opt_createdAt (meta_options (view exUser h)))
                    (opt_createdAt (suppliedOptions NameNone None))
                    (opt_createdAt (meta_options e'))
    ∧ timestampRule (opt_updatedAt (meta_options (view exUser h)))
                    (opt_updatedAt (suppliedOptions NameNone None))
                    (opt_updatedAt (meta_options e')).
Proof.
  intros h.
  assert (getMeta (ProtoOf exUser) h = Ok (Stored 1 0, view exUser h) h) as E
    by (by vm_compute).
  split; [exact E|].
  exact (Entity_timestamp_defaults NameNone None exUser h _ _ _ E).
Defined.

(** [lastName] and [firstName] share the index [by_name]; [email] has an
    index of its own in between. *)
Lemma Index_same_name_accumulates_witness :
  indexHeapOk emptyHeap
  ∧ findIndex "by_name" (indexesOf (meta_options (view exUser emptyHeap)) emptyHeap)
      (indexObjs emptyHeap) = None
  ∧ ∃ h', decorateIndexes exUser exIndexSteps emptyHeap = Ok tt h'
    ∧ (∀ l o, l ∈ indexesOf (meta_options (view exUser h')) h' →
              indexObjs h' !! l = Some o → idx_name o = Has "by_name" →
              idx_fields o = keysNamed "by_name" exIndexSteps)
    ∧ (keysNamed "by_name" exIndexSteps ≠ [] →
       ∃ l o, findIndex "by_name" (indexesOf (meta_options (view exUser h')) h')
                (indexObjs h') = Some l
              ∧ indexObjs h' !! l = Some o
              ∧ idx_name o = Has "by_name"
              ∧ idx_fields o = keysNamed "by_name" exIndexSteps
              ∧ storedMeta exUser h' = Some (view exUser h')).
Proof.
  assert (indexHeapOk emptyHeap) as Hok.
  { intros l [o Ho]. simpl in Ho. by rewrite lookup_empty in Ho. }
  split; [exact Hok|]. split; [reflexivity|].
  exact (Index_same_name_accumulates exUser "by_name" exIndexSteps emptyHeap Hok eq_refl).
Defined.

(** * Further properties of the decorators and the registrar *)

(** ** Looking up metadata *)

(** X1.  [getMeta] is idempotent: a second lookup for the same target
    returns the same reference and record and changes nothing more; and
    the record it returns is always named like the target's constructor. *)
Theorem getMeta_is_idempotent t h :
  getMeta t (stateOf (getMeta t h)) = getMeta t h
  ∧ ∀ r e h1, getMeta t h = Ok (r, e) h1 → constructorName t = Some (meta_name e).
Proof.
  unfold getMeta, findOrPush.
  destruct (constructorName t) as [n|] eqn:Hn; [|by split].
  set (chain := protoChain t).
  destruct (findHolder (metaStores h) chain) as [p|] eqn:Hh.
  - destruct (findHolder_Some _ _ _ Hh) as [es Hes]. rewrite Hes. simpl.
    destruct (findEntity n es) as [[i e]|] eqn:E.
    + simpl. rewrite Hh, Hes. simpl. rewrite E. split; [done|].
      intros r e' h1 [= <- <- <-]. by apply findEntity_Some in E as [_ ->].
    + simpl. split; [|by intros r e' h1 [= <- <- <-]].
      rewrite (findHolder_same_dom (metaStores h)), Hh.
      2:{ intros x. destruct (decide (x = p)) as [->|Hx].
          - rewrite lookup_insert_eq, Hes. split; by eauto.
          - by rewrite lookup_insert_ne. }
      rewrite lookup_insert_eq. simpl. rewrite findEntity_app_new, E.
      by rewrite decide_True.
  - destruct t as [f|f|]; [| |done].
    + simpl in Hn. inversion Hn; subst n. simpl.
      split; [|by intros r e' h1 [= <- <- <-]].
      unfold chain. cbn [protoChain findHolder]. rewrite !lookup_insert_eq.
      cbn [default id findEntity newEntity meta_name]. by rewrite decide_True.
    + simpl in Hn. inversion Hn; subst n. cbn [stateOf]. rewrite Hh.
      split; [done|]. by intros r e' h1 [= <- <- <-].
Qed.

(** X2.  Every member decorator applied to a target that has no
    constructor throws the invalid-entity error, and throws it before
    anything has been written. *)
Theorem decorators_reject_target_without_constructor d key h :
  decorate d NoConstructor key h
  = Throw "Invalid Entity. Entities should be of type function/class." h.
Proof. destruct d as [a| | | |[] tf o|o]; reflexivity. Qed.

(** ** Writing the same part twice *)

Lemma updMeta_ext r g g' h : (∀ e, g e = g' e) → updMeta r g h = updMeta r g' h.
Proof.
  intros Hg. destruct r as [p i|]; [|done]. unfold updMeta. f_equal.
  apply alter_ext. intros es _. by apply list_alter_ext.
Qed.

Lemma updMeta_updMeta p i g g' h :
  updMeta (Stored p i) g' (updMeta (Stored p i) g h) = updMeta (Stored p i) (g' ∘ g) h.
Proof.
  unfold updMeta, setStores. cbn [metaStores assocObjs indexObjs nextLoc]. f_equal.
  apply map_eq. intros j. destruct (decide (p = j)) as [<-|Hne].
  - rewrite !lookup_alter_eq. destruct (metaStores h !! p) as [es|]; [|done]. simpl.
    by rewrite list_alter_alter_eq.
  - by rewrite !lookup_alter_ne.
Qed.

(** A decorator that only writes [g] to the record of the class. *)
Lemma write_twice c h g g' :
  (∀ e, meta_name (g e) = meta_name e) →
  ∃ p i h1,
    getMeta (ProtoOf c) h = Ok (Stored p i, view c h) h1
    ∧ getMeta (ProtoOf c) (updMeta (Stored p i) g h1)
      = Ok (Stored p i, g (view c h)) (updMeta (Stored p i) g h1)
    ∧ updMeta (Stored p i) g' (updMeta (Stored p i) g h1) = updMeta (Stored p i) (g' ∘ g) h1.
Proof.
  intros Hg.
  destruct (getMeta_ProtoOf_run c h) as (p & i & h1 & E & Hh & Hf & _).
  exists p, i, h1. split; [done|]. split; [|apply updMeta_updMeta].
  destruct (decorate_run c h p i h1 h1 g Hh Hf eq_refl) as (_ & Hfound & _).
  apply Hfound. rewrite Hg. apply view_name.
Qed.

(** X3.  The last write wins: decorating a property again with [Column]
    (or with [PrimaryGeneratedColumn]) leaves exactly what the second
    decoration alone would have left, and so does a second
    [CreatedDateColumn] or [UpdatedDateColumn] on any property. *)
Theorem column_last_write_wins c key key' a b h :
  Column b (ProtoOf c) key (stateOf (Column a (ProtoOf c) key h))
  = Column b (ProtoOf c) key h
  ∧ PrimaryGeneratedColumn (ProtoOf c) key (stateOf (Column a (ProtoOf c) key h))
    = PrimaryGeneratedColumn (ProtoOf c) key h
  ∧ CreatedDateColumn (ProtoOf c) key' (stateOf (CreatedDateColumn (ProtoOf c) key h))
    = CreatedDateColumn (ProtoOf c) key' h
  ∧ UpdatedDateColumn (ProtoOf c) key' (stateOf (UpdatedDateColumn (ProtoOf c) key h))
    = UpdatedDateColumn (ProtoOf c) key' h.
Proof.
  assert (∀ g g', (∀ e, meta_name (g e) = meta_name e) → (∀ e, g' (g e) = g' e) →
    (run (r, _) := getMeta (ProtoOf c) in modifyR (updMeta r g'))
      (stateOf ((run (r, _) := getMeta (ProtoOf c) in modifyR (updMeta r g)) h))
    = (run (r, _) := getMeta (ProtoOf c) in modifyR (updMeta r g')) h) as Hgen.
  { intros g g' Hg Hgg.
    destruct (write_twice c h g g' Hg) as (p & i & h1 & E & E' & Hupd).
    unfold bindR, modifyR. rewrite E. cbn [stateOf]. rewrite E', Hupd.
    f_equal. by apply updMeta_ext. }
  split_and!.
  - apply (Hgen (setField key a) (setField key b)); [done|].
    intros e. unfold setField. simpl. f_equal. apply insert_insert_eq.
  - apply (Hgen (setField key a) (setField key generatedKeyAttribute)); [done|].
    intros e. unfold setField. simpl. f_equal. apply insert_insert_eq.
  - by apply (Hgen (λ m, setOptions (setCreatedAt (Has (SStr key)) (meta_options m)) m)
                   (λ m, setOptions (setCreatedAt (Has (SStr key')) (meta_options m)) m)).
  - by apply (Hgen (λ m, setOptions (setUpdatedAt (Has (SStr key)) (meta_options m)) m)
                   (λ m, setOptions (setUpdatedAt (Has (SStr key')) (meta_options m)) m)).
Qed.

(** ** Entity *)

Lemma assignSlot_twice {A} (a s : Slot A) : assignSlot (assignSlot a s) s = assignSlot a s.
Proof. by destruct s. Qed.

Lemma assignDefineOptions_twice o stored :
  assignDefineOptions (assignDefineOptions o stored) stored = assignDefineOptions o stored.
Proof.
  unfold assignDefineOptions. cbn [opt_createdAt opt_updatedAt opt_indexes opt_rest].
  rewrite !assignSlot_twice. f_equal.
  by rewrite (assoc_L (∪)), (idemp_L (∪)).
Qed.

Lemma entityUpdate_options name options c e :
  meta_options (entityUpdate name options c e)
  = defaultTimestamps (assignDefineOptions (suppliedOptions name options) (meta_options e)).
Proof.
  unfold entityUpdate, assignOver. cbn [setOptions meta_options setName].
  destruct name as [|s|o], options as [o'|]; cbn [suppliedOptions default id]; try done.
  by rewrite assignDefineOptions_twice.
Qed.

(** X4.  An options object given to [Entity] in the place of the name is
    treated as the options: [Entity(o)] leaves exactly what
    [Entity(undefined, o)] leaves.  When options are given as well, the
    object in the place of the name is ignored. *)
Theorem Entity_options_in_name_position o o' c h :
  Entity (NameObj o) None c h = Entity NameNone (Some o) c h
  ∧ Entity (NameObj o) (Some o') c h = Entity NameNone (Some o') c h.
Proof.
  assert (∀ name options name' options',
    (∀ e, entityUpdate name options c e = entityUpdate name' options' c e) →
    Entity name options c h = Entity name' options' c h) as Hgen.
  { intros name options name' options' Hext. unfold Entity, bindR, modifyR.
    destruct (getMeta (ProtoOf c) h) as [[r e] h1|]; [|done].
    f_equal. by apply updMeta_ext. }
  split; apply Hgen; intros e.
  - assert (meta_options (entityUpdate (NameObj o) None c e)
            = meta_options (entityUpdate NameNone (Some o) c e)) as Ho
      by (by rewrite !entityUpdate_options).
    unfold entityUpdate in *. cbn [setOptions setName meta_options] in *.
    by rewrite Ho.
  - done.
Qed.

(** X5.  How [Entity] resolves the name and the options.  The record is
    named by the string given, and after the class otherwise.  An option the
    record already holds wins over one the call supplies, and one it does
    not hold is taken from the call; this goes for the engine's own options
    and for the index list alike. *)
Theorem Entity_stored_options_win name options c h r e h1 :
  getMeta (ProtoOf c) h = Ok (r, e) h1 →
  ∃ e', readMeta r (stateOf (Entity name options c h)) = Some e'
    ∧ meta_name e' = match name with NameStr s => s | _ => fname c end
    ∧ (∀ k, opt_rest (meta_options e') !! k
            = match opt_rest (meta_options e) !! k with
              | Some v => Some v
              | None => opt_rest (suppliedOptions name options) !! k
              end)
    ∧ opt_indexes (meta_options e')
      = match opt_indexes (meta_options e) with
        | Absent => opt_indexes (suppliedOptions name options)
        | stored => stored
        end.
Proof.
  intros E.
  destruct (Entity_run name options c h) as (p & i & h1' & E' & -> & Hh & Hf).
  rewrite E in E'. inversion E'; subst. cbn [stateOf].
  destruct (decorate_run c h p i h1' h1' (entityUpdate name options c) Hh Hf eq_refl)
    as (Hr & _).
  eexists. split; [exact Hr|]. split; [by destruct name|].
  rewrite entityUpdate_options.
  destruct (defaultTimestamps_rest
              (assignDefineOptions (suppliedOptions name options) (meta_options (view c h))))
    as [-> ->].
  unfold assignDefineOptions. cbn [opt_rest opt_indexes]. split.
  - intros k. rewrite lookup_union.
    by destruct (opt_rest (meta_options (view c h)) !! k),
                (opt_rest (suppliedOptions name options) !! k).
  - by destruct (opt_indexes (meta_options (view c h))).
Qed.

(** ** Association decorators *)

(** X6.  An association decorator stores the caller's options object
    itself, not a copy, and writes nothing to it but [as]: every other
    option of the caller ([through], the foreign key, ...) is kept.  When
    no options were given, the stored object holds [as] alone. *)
Theorem association_decorator_keeps_caller_options m tf options c key h h' :
  associationDecorator m tf options (ProtoOf c) key h = Ok tt h' →
  (∃ e ea, storedMeta c h' = Some e
     ∧ assocGet key (meta_associations e) = Some ea
     ∧ ea_association ea = optionsLoc options h)
  ∧ derefOptions (optionsLoc options h) h'
    = set_as key match options with
                 | Some l => derefOptions l h
                 | None => emptyAssociationOptions
                 end.
Proof.
  destruct (associationDecorator_run m tf options c key h)
    as (p & i & h1 & E & Hh & Hf & Ha1 & Hst & ->).
  destruct (getMeta_ProtoOf_run c h) as (p' & i' & h1' & E' & _ & _ & Heq & _).
  rewrite E in E'. inversion E'; subst p' i' h1'. clear E'.
  assert (nextLoc h1 = nextLoc h) as Hn1 by (by rewrite Heq).
  set (l := optionsLoc options h1). set (h2 := stateOf (ensureOptions options h1)) in *.
  assert (l = optionsLoc options h) as Hl by (unfold l, optionsLoc; by rewrite Hn1).
  destruct (throughMissing m (derefOptions l h2)); [done|]. intros [= <-].
  destruct (decorate_run c h p i h1 (afterWrite l key h2)
              (setAssociation key (mkEntityAssociation tf m l)) Hh Hf Hst)
    as (_ & Hfound & _).
  destruct (Hfound (view_name c h)) as (_ & Hs). rewrite <- Hl. split.
  - eexists _, _. split; [exact Hs|]. cbn [setAssociation meta_associations].
    by rewrite assocGet_assocSet_eq.
  - unfold derefOptions at 1. unfold updMeta, afterWrite.
    cbn [assocObjs setStores setAssocObjs]. rewrite lookup_insert_eq. cbn [default id].
    f_equal. unfold l, h2, derefOptions. destruct options as [l0|]; cbn.
    + by rewrite Ha1.
    + by rewrite lookup_insert_eq.
Qed.

(** ** Index *)

(** X7.  [Index] without a name never merges: it makes a new index object
    over the decorated property alone, appends it to the index list, and
    leaves every index object that existed as it was. *)
Theorem Index_without_name_makes_new_index options c key h :
  indexHeapOk h →
  isNull (io_name (default emptyIIndexOptions options)) = true →
  ∃ h', Index options (ProtoOf c) key h = Ok tt h'
    ∧ indexesOf (meta_options (view c h')) h'
      = indexesOf (meta_options (view c h)) h ++ [nextLoc h]
    ∧ indexObjs h' !! nextLoc h
      = Some {| idx_name := Absent;
                idx_unique := cleanSlot (readSlot (io_unique (default emptyIIndexOptions options)));
                idx_fields := [key] |}
    ∧ (∀ l o, indexObjs h !! l = Some o → indexObjs h' !! l = Some o).
Proof.
  intros Hok Hname.
  destruct (Index_view options c key h) as (h' & E & _ & _ & Hv & Hobjs & _).
  assert (foundIndex options (view c h) h = None) as Hnone.
  { unfold foundIndex. by destruct (io_name (default emptyIIndexOptions options)). }
  exists h'. split; [done|]. rewrite Hv, Hobjs.
  unfold indexLoc, indexObjsAfter. rewrite Hnone. cbn [default]. split_and!.
  - done.
  - rewrite lookup_alter_eq, lookup_insert_eq. unfold newIndexObject. cbn.
    by destruct (io_name (default emptyIIndexOptions options)).
  - intros l o Ho. assert (l ≠ nextLoc h) as Hne.
    { intros ->. by rewrite (indexHeapOk_fresh h Hok) in Ho. }
    by rewrite lookup_alter_ne, lookup_insert_ne.
Qed.

Lemma namesIndex_true n options :
  namesIndex n options = true → io_name (default emptyIIndexOptions options) = Has n.
Proof. apply bool_decide_eq_true. Qed.

Lemma Index_again c n l u steps h :
  Forall (λ s, namesIndex n s.1 = true) steps →
  findIndex n (indexesOf (meta_options (view c h)) h) (indexObjs h) = Some l →
  (∃ o, indexObjs h !! l = Some o ∧ idx_name o = Has n ∧ idx_unique o = u) →
  cleanSlot u = u →
  ∃ h', decorateIndexes c steps h = Ok tt h'
    ∧ indexesOf (meta_options (view c h')) h'
      = indexesOf (meta_options (view c h)) h ++ replicate (length steps) l
    ∧ ∃ o, indexObjs h' !! l = Some o ∧ idx_name o = Has n ∧ idx_unique o = u.
Proof.
  intros Hall. revert h. induction Hall as [|[options key] steps Hn _ IH];
    intros h Hf (o & Ho & Hname & Hu) Hclean.
  - exists h. cbn [length replicate decorateIndexes]. rewrite app_nil_r.
    split_and!; [done|done|by exists o].
  - cbn [fst] in Hn. apply namesIndex_true in Hn.
    destruct (Index_view options c key h) as (h1 & E1 & _ & _ & Hv1 & Hobjs1 & _).
    assert (foundIndex options (view c h) h = Some l) as Hfound.
    { unfold foundIndex. by rewrite Hn. }
    unfold indexLoc, indexObjsAfter in *. rewrite Hfound in *. cbn [default id] in *.
    assert (indexObjs h1 !! l = Some (clean (pushField key o))) as Ho1.
    { by rewrite Hobjs1, !lookup_alter_eq, Ho. }
    assert (∀ x, namedIn (indexObjs h1) n x = namedIn (indexObjs h) n x) as Hext.
    { intros x. unfold namedIn. destruct (decide (x = l)) as [->|Hx].
      - rewrite Ho1, Ho. cbn [clean pushField idx_name]. by rewrite Hname.
      - by rewrite Hobjs1, !lookup_alter_ne. }
    destruct (IH h1) as (h' & E' & Hixs & Hobj).
    + rewrite Hv1.
      by rewrite findIndex_app, (findIndex_ext n _ (indexObjs h) (indexObjs h1)), Hf.
    + eexists. split; [exact Ho1|]. cbn [clean pushField idx_name idx_unique].
      rewrite Hname, Hu, Hclean. by split.
    + done.
    + exists h'. split_and!; try done.
      * cbn [decorateIndexes]. unfold bindR. by rewrite E1.
      * rewrite Hixs, Hv1. cbn [length replicate].
        by rewrite <- app_assoc.
Qed.

Lemma cleanSlot_idemp {A} (s : Slot A) : cleanSlot (cleanSlot s) = cleanSlot s.
Proof. by destruct s. Qed.

(** X8.  When several properties are decorated with the same index name
    on a class that has no index of that name, one index object is made
    by the first decoration, and every decoration, the first included,
    appends a reference to that same object to the index list, which so
    holds it once per decoration; the [unique] flag of the index is the one
    of the first decoration, the later ones are ignored. *)
Theorem Index_same_name_repeats_reference c n first key steps h :
  findIndex n (indexesOf (meta_options (view c h)) h) (indexObjs h) = None →
  namesIndex n first = true →
  Forall (λ s, namesIndex n s.1 = true) steps →
  ∃ h', decorateIndexes c ((first, key) :: steps) h = Ok tt h'
    ∧ indexesOf (meta_options (view c h')) h'
      = indexesOf (meta_options (view c h)) h ++ replicate (S (length steps)) (nextLoc h)
    ∧ ∃ o, indexObjs h' !! nextLoc h = Some o
           ∧ idx_name o = Has n
           ∧ idx_unique o
             = cleanSlot (readSlot (io_unique (default emptyIIndexOptions first))).
Proof.
  intros Hnone Hfirst Hall. apply namesIndex_true in Hfirst.
  destruct (Index_view first c key h) as (h1 & E1 & _ & _ & Hv1 & Hobjs1 & _).
  assert (foundIndex first (view c h) h = None) as Hfound.
  { unfold foundIndex. by rewrite Hfirst. }
  unfold indexLoc, indexObjsAfter in *. rewrite Hfound in *. cbn [default id] in *.
  set (l := nextLoc h) in *.
  assert (indexObjs h1 !! l = Some (clean (newIndexObject first key))) as Ho1.
  { by rewrite Hobjs1, lookup_alter_eq, lookup_insert_eq. }
  assert (idx_name (clean (newIndexObject first key)) = Has n) as Hname.
  { unfold newIndexObject. cbn. by rewrite Hfirst. }
  destruct (Index_again c n l
              (cleanSlot (readSlot (io_unique (default emptyIIndexOptions first))))
              steps h1 Hall) as (h' & E' & Hixs & Hobj).
  - rewrite Hv1.
    apply findIndex_last.
    + intros x Hx Hnamed. destruct (decide (x = l)) as [|Hne]; [done|].
      unfold namedIn in Hnamed.
      rewrite Hobjs1, lookup_alter_ne, lookup_insert_ne in Hnamed by done.
      pose proof (findIndex_None _ _ _ x Hnone Hx) as Hx'. unfold namedIn in Hx'.
      congruence.
    + unfold namedIn. rewrite Ho1. by apply bool_decide_eq_true_2.
  - by eauto.
  - apply cleanSlot_idemp.
  - exists h'. split_and!; try done.
    + cbn [decorateIndexes]. unfold bindR. by rewrite E1.
    + rewrite Hixs, Hv1. cbn [replicate].
      by rewrite <- app_assoc.
Qed.

(** ** The registrar and the engine's models *)

Lemma sameDefinition_refl m : sameDefinition m m.
Proof. done. Qed.

Lemma modelsKept_refl ms : modelsKept ms ms.
Proof. intros k. destruct (ms !! k) as [m|]; [|done]. exists m. by split. Qed.

Lemma modelsKept_trans ms1 ms2 ms3 :
  modelsKept ms1 ms2 → modelsKept ms2 ms3 → modelsKept ms1 ms3.
Proof.
  intros H12 H23 k. specialize (H12 k). specialize (H23 k).
  destruct (ms1 !! k) as [m1|].
  - destruct H12 as (m2 & E2 & S12). rewrite E2 in H23.
    destruct H23 as (m3 & E3 & S23). exists m3. split; [done|].
    destruct S12 as (? & ? & ?), S23 as (? & ? & ?). split_and!; congruence.
  - by rewrite H12 in H23.
Qed.

Section RegistrarModels.
Variable associate : AssociationMethod → Model → option Model → AssociationOptions → EngineReply.

Lemma associateLoop_models entity model assns w :
  models w.2 !! fname entity = Some model →
  modelsKept (models w.2) (models (stateOf (associateLoop associate entity model assns w)).2).
Proof.
  revert model w. induction assns as [|[k ea] assns IH]; intros model w Hm.
  - apply modelsKept_refl.
  - cbn [associateLoop]. unfold bindR.
    destruct (associate (ea_method ea) model
                (models w.2 !! fname (ea_target ea tt))
                (derefOptions (ea_association ea) w.1)) as [a|msg].
    + cbn zeta.
      match goal with |- context [associateLoop associate entity ?m assns ?w'] =>
        pose proof (IH m w') as IH' end.
      cbn [snd models] in IH'. eapply modelsKept_trans; [|apply IH'; by rewrite lookup_insert_eq].
      intros j. destruct (decide (j = fname entity)) as [->|Hne].
      * rewrite Hm, lookup_insert_eq. eexists. by split.
      * rewrite lookup_insert_ne by done.
        destruct (models w.2 !! j) as [m|]; [|done]. exists m. by split.
    + cbn. apply modelsKept_refl.
Qed.

Lemma associatePass_models entities w :
  modelsKept (models w.2) (models (stateOf (associatePass associate entities w)).2).
Proof.
  revert w. induction entities as [|c cs IH]; intros [h q]; [apply modelsKept_refl|].
  destruct (associatePass_cons associate c cs h q) as (h1 & _ & ->). cbn [snd].
  destruct (models q !! fname c) as [model|] eqn:Em.
  - pose proof (associateLoop_models c model (objectKeys (meta_associations (view c h))) (h1, q) Em) as K.
    destruct (associateLoop associate c model (objectKeys (meta_associations (view c h))) (h1, q))
      as [[] w2|msg w2]; cbn [stateOf snd] in *.
    + eapply modelsKept_trans; [exact K|apply IH].
    + exact K.
  - apply (IH (h1, q)).
Qed.

(** The state [registerEntities] ends in, by passes. *)
Lemma registerEntities_state entities h q :
  ∃ h1, sameViews h h1
    ∧ stateOf (registerEntities associate entities (h, q))
      = stateOf (associatePass associate entities (h1, foldl (defineEntity h) q entities))
    ∧ returned (registerEntities associate entities (h, q))
      = (λ _, models (stateOf (registerEntities associate entities (h, q))).2)
          <$> returned (associatePass associate entities
                          (h1, foldl (defineEntity h) q entities)).
Proof.
  destruct (definePass_run entities h q) as (h1 & E1 & S1).
  exists h1. split; [done|].
  unfold registerEntities, bindR. rewrite E1.
  by destruct (associatePass associate entities _) as [[] w2|msg w2].
Qed.

Lemma registerEntities_handle entities c h q :
  NoDup (fname <$> entities) → c ∈ entities →
  ∃ m, models (stateOf (registerEntities associate entities (h, q))).2 !! fname c = Some m
       ∧ sameDefinition (modelOf h c) m.
Proof.
  intros Hnd Hc. destruct (registerEntities_state entities h q) as (h1 & _ & -> & _).
  pose proof (associatePass_models entities (h1, foldl (defineEntity h) q entities)
                (fname c)) as K.
  cbn [snd] in K. rewrite models_foldl_defineEntity in K.
  by rewrite (foldl_insert_in fname (modelOf h)) in K.
Qed.

(** X9.  With entities of pairwise distinct class names, for an entity
    whose metadata record is stored under its class name (an entity that
    [Entity] has not renamed), the model [registerEntities] leaves under
    that name was defined with exactly the name, the fields and the options
    of that record, whether or not associations were attached and whether
    the run returned or an association call raised; and what a run returns
    is the engine's mapping of models. *)
Theorem registerEntities_handle_carries_metadata entities c e h q :
  NoDup (fname <$> entities) → c ∈ entities →
  storedMeta c h = Some e →
  let r := registerEntities associate entities (h, q) in
  (∃ m, models (stateOf r).2 !! fname c = Some m
        ∧ model_name m = meta_name e
        ∧ model_attributes m = meta_fields e
        ∧ model_options m = meta_options e)
  ∧ (∀ ms, returned r = Some ms → ms = models (stateOf r).2).
Proof.
  intros Hnd Hc He r. split.
  - destruct (registerEntities_handle entities c h q Hnd Hc) as (m & Hm & Hn & Ha & Ho).
    assert (view c h = e) as Hv by (unfold view; by rewrite He).
    exists m. rewrite Hn, Ha, Ho. cbn [modelOf model_name model_attributes model_options].
    rewrite <- Hv. split_and!; try done. by rewrite view_name.
  - subst r. unfold registerEntities, bindR. intros ms.
    destruct (definePass entities (h, q)) as [[] w1|]; [|done].
    destruct (associatePass associate entities w1) as [[] w2|]; [|done].
    by intros [= <-].
Qed.




End RegistrarModels.

(** ** Entities without metadata *)

Section RegistrarHeap.
Variable associate : AssociationMethod → Model → option Model → AssociationOptions → EngineReply.

(** X12.  Classes without any metadata can be registered: each gets a
    model under its class name with no attribute and no option, no
    association call is made, and the prototypes are left without
    metadata (the heap is exactly as before). *)
Theorem registerEntities_undecorated entities h q :
  Forall (λ c, findHolder (metaStores h) (fid c :: fsupers c) = None) entities →
  ∃ q', registerEntities associate entities (h, q) = Ok (models q') (h, q')
    ∧ models q' = foldl (λ m c, <[fname c := emptyModel c]> m) (models q) entities
    ∧ calls q' = calls q ++ (CallDefine ∘ fname <$> entities).
Proof.
  intros Hall.
  assert (∀ c, c ∈ entities →
    getMeta (CreateFrom c) h = Ok (Detached, newEntity (fname c)) h) as Hget.
  { intros c Hc. unfold getMeta. cbn [constructorName protoChain].
    by rewrite (proj1 (Forall_forall _ _) Hall c Hc). }
  assert (∀ q0, ∃ q', definePass entities (h, q0) = Ok tt (h, q')
    ∧ models q' = foldl (λ m c, <[fname c := emptyModel c]> m) (models q0) entities
    ∧ calls q' = calls q0 ++ (CallDefine ∘ fname <$> entities)) as Hdef.
  { clear Hall. induction entities as [|c cs IH]; intros q0.
    - exists q0. cbn. by rewrite app_nil_r.
    - destruct (IH (λ c' Hc', Hget c' (list_elem_of_further _ _ _ Hc'))
                  (define (fname c) ∅ emptyDefineOptions q0)) as (q' & E & Hm & Hc).
      exists q'. split_and!.
      + cbn [definePass]. unfold bindR, liftHeap, modifyR. cbn [fst snd].
        rewrite (Hget c) by (by left). exact E.
      + rewrite Hm. done.
      + rewrite Hc. cbn. by rewrite <- app_assoc. }
  assert (∀ q0, associatePass associate entities (h, q0) = Ok tt (h, q0)) as Hass.
  { clear Hall Hdef. induction entities as [|c cs IH]; intros q0; [done|].
    cbn [associatePass]. unfold bindR, liftHeap. cbn [fst snd].
    rewrite (Hget c) by (by left). cbn [fst snd newEntity meta_associations].
    destruct (models q0 !! fname c); cbn [associateLoop]; unfold retR;
      apply (IH (λ c' Hc', Hget c' (list_elem_of_further _ _ _ Hc'))). }
  destruct (Hdef q) as (q' & E & Hm & Hc). exists q'. split; [|done].
  unfold registerEntities, bindR. by rewrite E, Hass.
Qed.

End RegistrarHeap.

(** ** The order of registration *)

Lemma foldl_insert_Permutation {V} (key : Func → string) (val : Func → V)
    (m : gmap string V) cs cs' :
  NoDup (key <$> cs) → cs ≡ₚ cs' →
  foldl (λ m c, <[key c := val c]> m) m cs = foldl (λ m c, <[key c := val c]> m) m cs'.
Proof.
  intros Hnd Hp. assert (NoDup (key <$> cs')) as Hnd' by (by rewrite <- Hp).
  apply map_eq. intros n.
  destruct (decide (n ∈ key <$> cs)) as [Hin|Hout].
  - apply list_elem_of_fmap in Hin as (c & -> & Hc).
    rewrite !foldl_insert_in; try done. by rewrite <- Hp.
  - rewrite !foldl_insert_notin; try done. by rewrite <- Hp.
Qed.

Lemma NoDup_middle_names pre (c : Func) post c' :
  NoDup (fname <$> pre ++ c :: post) → c' ∈ pre ++ post → fname c' ≠ fname c.
Proof.
  rewrite fmap_app, fmap_cons. intros Hnd Hc' Heq.
  apply NoDup_app in Hnd as (_ & Hdisj & Hnd).
  apply NoDup_cons in Hnd as [Hc _].
  apply elem_of_app in Hc' as [Hc'|Hc'].
  - apply (Hdisj (fname c')); [by apply list_elem_of_fmap_2|]. rewrite Heq. by left.
  - apply Hc. rewrite <- Heq. by apply list_elem_of_fmap_2.
Qed.

Section RegistrarOrder.
Variable associate : AssociationMethod → Model → option Model → AssociationOptions → EngineReply.

(** A run in which one entity declares one association and the others
    none, in terms of the models pass 1 leaves. *)
Lemma registerEntities_one_association pre c post k ea h q :
  NoDup (fname <$> pre ++ c :: post) →
  (∀ c', c' ∈ pre ++ post → meta_associations (view c' h) = []) →
  meta_associations (view c h) = [(k, ea)] →
  let M := foldl (λ m c, <[fname c := modelOf h c]> m) (models q) (pre ++ c :: post) in
  let r := registerEntities associate (pre ++ c :: post) (h, q) in
  match associate (ea_method ea) (modelOf h c) (M !! fname (ea_target ea tt))
          (derefOptions (ea_association ea) h) with
  | Raises msg => isThrow r = true ∧ returned r = None ∧ models (stateOf r).2 = M
  | Returns a =>
      isThrow r = false
      ∧ returned r = Some (<[fname c := setProp k a (modelOf h c)]> M)
      ∧ models (stateOf r).2 = <[fname c := setProp k a (modelOf h c)]> M
  end.
Proof.
  intros Hnd Hno Hc M r. subst r.
  destruct (definePass_run (pre ++ c :: post) h q) as (h1 & E1 & S1).
  set (q1 := foldl (defineEntity h) q (pre ++ c :: post)) in *.
  assert (models q1 = M) as HM by (unfold q1, M; apply models_foldl_defineEntity).
  destruct (associatePass_nothing associate pre h1 q1) as (h2 & E2 & S2).
  { intros c' Hc'. destruct S1 as [V _]. rewrite V. apply Hno.
    apply elem_of_app. by left. }
  destruct (associatePass_cons associate c post h2 q1) as (h3 & S3 & E3).
  pose proof (sameViews_trans _ _ _ S1 S2) as S12.
  pose proof (sameViews_trans _ _ _ S12 S3) as S13.
  assert (models q1 !! fname c = Some (modelOf h c)) as Hm.
  { rewrite HM. apply (foldl_insert_in fname (modelOf h)); [done|].
    apply elem_of_app. right. by left. }
  assert (view c h2 = view c h) as Hv by (destruct S12 as [V _]; apply V).
  rewrite Hm, Hv, Hc, objectKeys_singleton in E3. cbn [associateLoop] in E3. unfold bindR in E3.
  cbn [fst snd] in E3. rewrite HM, (derefOptions_sameViews h h3) in E3 by done.
  assert (registerEntities associate (pre ++ c :: post) (h, q)
          = match associatePass associate (c :: post) (h2, q1) with
            | Ok _ w' => Ok (models w'.2) w'
            | Throw msg w' => Throw msg w'
            end) as ->.
  { unfold registerEntities, bindR. rewrite E1. fold q1.
    by rewrite associatePass_app, E2. }
  rewrite E3.
  destruct (associate (ea_method ea) (modelOf h c) (M !! fname (ea_target ea tt))
              (derefOptions (ea_association ea) h)) as [a|msg].
  - unfold retR.
    match goal with |- context [associatePass associate post (h3, ?q2)] =>
      destruct (associatePass_nothing associate post h3 q2) as (h4 & E4 & _) end.
    { intros c' Hc'. destruct S13 as [V _]. rewrite V. apply Hno.
      apply elem_of_app. by right. }
    rewrite E4. cbn [isThrow returned stateOf snd fst models]. by rewrite ?HM.
  - cbn [isThrow returned stateOf snd fst models]. by rewrite ?HM.
Qed.

(** X13.  Registration does not depend on the order of the list: when one
    entity declares an association and the others none, and class names are
    pairwise distinct, registering the same entities in any other order
    throws or returns alike, returns the same mapping and leaves the same
    models; in particular the accessor on the declaring entity's model is
    the same whether its target comes before or after it. *)
Theorem registration_order_independent entities entities' c k ea h q :
  entities ≡ₚ entities' →
  NoDup (fname <$> entities) →
  c ∈ entities →
  (∀ c', c' ∈ entities → fname c' ≠ fname c → meta_associations (view c' h) = []) →
  meta_associations (view c h) = [(k, ea)] →
  let r := registerEntities associate entities (h, q) in
  let r' := registerEntities associate entities' (h, q) in
  isThrow r = isThrow r'
  ∧ returned r = returned r'
  ∧ models (stateOf r).2 = models (stateOf r').2.
Proof.
  intros Hp Hnd Hc Hno Hassn r r'. subst r r'.
  assert (NoDup (fname <$> entities')) as Hnd' by (by rewrite <- Hp).
  assert (c ∈ entities') as Hc' by (by rewrite <- Hp).
  pose proof (foldl_insert_Permutation fname (modelOf h) (models q) _ _ Hnd Hp) as HM.
  apply list_elem_of_split in Hc as (pre & post & ->).
  apply list_elem_of_split in Hc' as (pre' & post' & ->).
  pose proof (registerEntities_one_association pre c post k ea h q Hnd) as R.
  pose proof (registerEntities_one_association pre' c post' k ea h q Hnd') as R'.
  cbn zeta in R, R'. rewrite <- HM in R'.
  assert (∀ c', c' ∈ pre ++ post → meta_associations (view c' h) = []) as Hno1.
  { intros c' Hin. apply Hno.
    - apply elem_of_app in Hin as [?|?];
        [apply elem_of_app; by left | apply elem_of_app; right; by right].
    - exact (NoDup_middle_names pre c post c' Hnd Hin). }
  assert (∀ c', c' ∈ pre' ++ post' → meta_associations (view c' h) = []) as Hno2.
  { intros c' Hin. apply Hno.
    - rewrite Hp. apply elem_of_app in Hin as [?|?];
        [apply elem_of_app; by left | apply elem_of_app; right; by right].
    - exact (NoDup_middle_names pre' c post' c' Hnd' Hin). }
  specialize (R Hno1 Hassn). specialize (R' Hno2 Hassn).
  destruct (associate (ea_method ea) (modelOf h c) _ (derefOptions (ea_association ea) h))
    as [a|msg]; destruct R as (-> & -> & ->), R' as (-> & -> & ->); done.
Qed.

End RegistrarOrder.

(** ** One class and another *)





(** What a member decoration of class [c] does to the stores: it writes to
    the record [getMeta] found, and keeps its name. *)
Lemma decorate_stores d key c h :
  ∃ p i h1 g,
    getMeta (ProtoOf c) h = Ok (Stored p i, view c h) h1
    ∧ findHolder (metaStores h1) (fid c :: fsupers c) = Some p
    ∧ findEntity (fname c) (default [] (metaStores h1 !! p)) = Some (i, view c h)
    ∧ (∀ e, meta_name (g e) = meta_name e)
    ∧ metaStores (stateOf (decorate d (ProtoOf c) key h))
      = alter (alter g i) p (metaStores h1).
Proof.
  destruct (getMeta_ProtoOf_run c h) as (p & i & h1 & E & Hh & Hf & _).
  exists p, i, h1.
  destruct d as [a| | | |m tf options|options]; cbn [decorate].
  - exists (setField key a). split_and!; try done.
    unfold Column, bindR, modifyR. by rewrite E.
  - exists (setField key generatedKeyAttribute). split_and!; try done.
    unfold PrimaryGeneratedColumn, bindR, modifyR. by rewrite E.
  - eexists. split_and!; [done|done|done| |].
    2:{ unfold CreatedDateColumn, bindR, modifyR. rewrite E. reflexivity. } done.
  - eexists. split_and!; [done|done|done| |].
    2:{ unfold UpdatedDateColumn, bindR, modifyR. rewrite E. reflexivity. } done.
  - destruct (associationDecorator_run m tf options c key h)
      as (p' & i' & h1' & E' & _ & _ & _ & Hst & ->).
    rewrite E in E'. inversion E'; subst p' i' h1'. clear E'.
    destruct (throughMissing m _).
    + exists (λ e, e). split_and!; try done. cbn [stateOf]. rewrite Hst.
      symmetry. apply alter_id. intros es _. by apply list_alter_id.
    + eexists. split_and!; [done|done|done| |].
      2:{ cbn [stateOf updMeta metaStores setStores afterWrite setAssocObjs].
          rewrite Hst. reflexivity. }
      done.
  - destruct (Index_run options c key h)
      as (p' & i' & h1' & h3 & E' & _ & _ & Hst & _ & _ & _ & _ & ->).
    rewrite E in E'. inversion E'; subst p' i' h1'. clear E'.
    exists (installIndexes (view c h) h). split_and!; [done|done|done| |].
    + intros e. apply installIndexes_parts.
    + cbn [stateOf updMeta metaStores setStores]. by rewrite Hst.
Qed.




(** ** Record names within a store *)

Lemma fmap_alter_names g i (es : list IEntity) :
  (∀ e, es !! i = Some e → meta_name (g e) = meta_name e) →
  meta_name <$> alter g i es = meta_name <$> es.
Proof.
  revert i. induction es as [|x es IH]; intros i Hg; [done|].
  destruct i as [|i]; simpl.
  - f_equal. by apply Hg.
  - f_equal. specialize (IH i Hg). unfold alter in IH. exact IH.
Qed.

Lemma alter_storesDistinct h h' p i g :
  (∀ es e, metaStores h !! p = Some es → es !! i = Some e → meta_name (g e) = meta_name e) →
  metaStores h' = alter (alter g i) p (metaStores h) →
  storesDistinct h → storesDistinct h'.
Proof.
  intros Hg Hst Hd p' es' Hp'. rewrite Hst in Hp'.
  destruct (decide (p' = p)) as [->|Hne].
  - rewrite lookup_alter_eq in Hp'.
    destruct (metaStores h !! p) as [es|] eqn:Hes; [|done]. simpl in Hp'.
    inversion Hp'; subst es'. rewrite fmap_alter_names by (intros e He; by eapply Hg).
    by eapply Hd.
  - rewrite lookup_alter_ne in Hp' by done. by eapply Hd.
Qed.

Lemma getMeta_any_storesDistinct t h :
  storesDistinct h → storesDistinct (stateOf (getMeta t h)).
Proof.
  intros Hd. destruct t as [c|c|]; [by apply getMeta_storesDistinct| |done].
  unfold getMeta, findOrPush. cbn [constructorName protoChain].
  destruct (findHolder (metaStores h) (fid c :: fsupers c)) as [p|] eqn:Hh; [|done].
  destruct (findHolder_Some _ _ _ Hh) as [es Hes]. rewrite Hes. simpl.
  destruct (findEntity (fname c) es) as [[i e]|] eqn:E; [done|].
  intros p' es' Hp'. cbn [stateOf metaStores setStores] in Hp'.
  destruct (decide (p' = p)) as [->|Hne].
  - rewrite lookup_insert_eq in Hp'. inversion Hp'; subst es'.
    rewrite fmap_app. apply NoDup_app. split; [by eapply Hd|]. split; [|apply NoDup_singleton].
    intros n Hn Hn'. apply list_elem_of_singleton in Hn' as ->.
    apply list_elem_of_fmap in Hn as (e & He & Hin).
    apply list_elem_of_lookup in Hin as [j Hj].
    by eapply findEntity_None_lookup.
  - rewrite lookup_insert_ne in Hp' by done. by eapply Hd.
Qed.

Lemma decorate_storesDistinct d c key h :
  storesDistinct h → storesDistinct (stateOf (decorate d (ProtoOf c) key h)).
Proof.
  intros Hd.
  destruct (decorate_stores d key c h) as (p & i & h1 & g & E & _ & _ & Hg & Hst).
  pose proof (getMeta_storesDistinct c h Hd) as Hd1. rewrite E in Hd1.
  by apply (alter_storesDistinct h1 _ p i g).
Qed.

(** X15.  No store comes to hold two records of one name, unless [Entity]
    renames a record: [getMeta], every member decorator, and [Entity]
    called without a name, or with the class's own name, keep the names of
    the records within each store pairwise distinct. *)
Theorem record_names_stay_distinct h :
  storesDistinct h →
  (∀ t, storesDistinct (stateOf (getMeta t h)))
  ∧ (∀ d c key, storesDistinct (stateOf (decorate d (ProtoOf c) key h)))
  ∧ (∀ name options c, (∀ s, name = NameStr s → s = fname c) →
       storesDistinct (stateOf (Entity name options c h))).
Proof.
  intros Hd. split; [intros t; by apply getMeta_any_storesDistinct|]. split.
  - intros d c key. by apply decorate_storesDistinct.
  - intros name options c Hname.
    destruct (Entity_run name options c h) as (p & i & h1 & E & -> & Hh & Hf).
    pose proof (getMeta_storesDistinct c h Hd) as Hd1. rewrite E in Hd1.
    apply (alter_storesDistinct h1 _ p i (entityUpdate name options c)); [|done|done].
    intros es e Hes Hi. rewrite Hes in Hf. simpl in Hf.
    apply findEntity_Some in Hf as [Hi' Hn]. rewrite Hi in Hi'. inversion Hi'; subst e.
    rewrite Hn. destruct name as [|s|o]; try done. cbn. by apply Hname.
Qed.

(** ** From the decorators to the engine *)

Lemma Column_view a c key h :
  view c (stateOf (Column a (ProtoOf c) key h)) = setField key a (view c h).
Proof.
  destruct (getMeta_ProtoOf_run c h) as (p & i & h1 & E & Hh & Hf & _).
  destruct (decorate_run c h p i h1 h1 (setField key a) Hh Hf eq_refl) as (_ & Hfound & _).
  destruct (Hfound (view_name c h)) as (_ & Hs).
  unfold Column, bindR, modifyR. rewrite E. cbn [stateOf].
  unfold view at 1. by rewrite Hs.
Qed.

Lemma Entity_view name options c h :
  (∀ s, name = NameStr s → s = fname c) →
  view c (stateOf (Entity name options c h)) = entityUpdate name options c (view c h).
Proof.
  intros Hname.
  destruct (Entity_run name options c h) as (p & i & h1 & E & -> & Hh & Hf).
  destruct (decorate_run c h p i h1 h1 (entityUpdate name options c) Hh Hf eq_refl)
    as (_ & Hfound & _).
  destruct Hfound as (_ & Hs).
  { destruct name as [|s|o]; try done. cbn. by apply Hname. }
  cbn [stateOf]. unfold view at 1. by rewrite Hs.
Qed.

Section EndToEnd.
Variable associate : AssociationMethod → Model → option Model → AssociationOptions → EngineReply.

(** X16.  A column declared with [Column] on a class that is then
    decorated with [Entity] (without a name) reaches the engine: once the
    class is registered, among entities of distinct names, its model
    under the class name has the attribute under the property name, and
    its [createdAt] and [updatedAt] options are set. *)
Theorem decorated_column_reaches_model a key options c entities h q :
  NoDup (fname <$> entities) → c ∈ entities →
  let h' := stateOf (Entity NameNone options c (stateOf (Column a (ProtoOf c) key h))) in
  ∃ m, models (stateOf (registerEntities associate entities (h', q))).2 !! fname c = Some m
    ∧ model_attributes m !! key = Some a
    ∧ isNull (opt_createdAt (model_options m)) = false
    ∧ isNull (opt_updatedAt (model_options m)) = false.
Proof.
  intros Hnd Hc h'.
  destruct (registerEntities_handle associate entities c h' q Hnd Hc)
    as (m & Hm & _ & Ha & Ho).
  exists m. split; [done|]. rewrite Ha, Ho. cbn [modelOf model_attributes model_options].
  unfold h'. rewrite Entity_view by done. rewrite Column_view.
  destruct (entityUpdate_keeps NameNone options c (setField key a (view c h))) as (-> & _).
  split_and!.
  - cbn [setField meta_fields]. apply lookup_insert_eq.
  - rewrite entityUpdate_createdAt. apply timestampRule_holds.
  - rewrite entityUpdate_updatedAt. apply timestampRule_holds.
Qed.

(** X17.  An entity that [Entity] has given a name other than its class
    name is registered without anything that was declared for it: its
    model, defined under the class name, has no attribute and no option.
    (The stores hold no two records of one name beforehand.) *)
Theorem renamed_entity_registers_without_columns s options c entities h q :
  storesDistinct h → s ≠ fname c →
  NoDup (fname <$> entities) → c ∈ entities →
  let h' := stateOf (Entity (NameStr s) options c h) in
  ∃ m, models (stateOf (registerEntities associate entities (h', q))).2 !! fname c = Some m
    ∧ model_name m = fname c
    ∧ model_attributes m = ∅
    ∧ model_options m = emptyDefineOptions.
Proof.
  intros Hd Hs Hnd Hc h'.
  destruct (registerEntities_handle associate entities c h' q Hnd Hc)
    as (m & Hm & Hn & Ha & Ho).
  exists m. split; [done|]. rewrite Hn, Ha, Ho.
  unfold modelOf, view, h'. by rewrite (Entity_rename_hides_record s options c h Hd Hs).
Qed.

End EndToEnd.

(** ** Associations with a registered target *)

Section RegisteredTarget.
Variable associate : AssociationMethod → Model → option Model → AssociationOptions → EngineReply.


End RegisteredTarget.

(** ** The further properties at concrete inputs *)

Lemma exUser_exPost_names : NoDup (fname <$> [exUser; exPost]).
Proof.
  vm_compute. apply NoDup_cons. split; [|apply NoDup_singleton].
  intros H%list_elem_of_singleton. discriminate.
Qed.

Lemma emptyHeap_storesDistinct : storesDistinct emptyHeap.
Proof. intros p es H. simpl in H. by rewrite lookup_empty in H. Qed.

Lemma emptyHeap_indexHeapOk : indexHeapOk emptyHeap.
Proof. intros l [o Ho]. simpl in Ho. by rewrite lookup_empty in Ho. Qed.

(** The first lookup for [User], which has no metadata yet. *)
Lemma getMeta_is_idempotent_witness :
  getMeta (ProtoOf exUser) emptyHeap
  = Ok (Stored 1 0, newEntity "User") (stateOf (getMeta (ProtoOf exUser) emptyHeap))
  ∧ getMeta (ProtoOf exUser) (stateOf (getMeta (ProtoOf exUser) emptyHeap))
    = getMeta (ProtoOf exUser) emptyHeap
  ∧ constructorName (ProtoOf exUser) = Some (meta_name (newEntity "User")).
Proof.
  assert (getMeta (ProtoOf exUser) emptyHeap
          = Ok (Stored 1 0, newEntity "User") (stateOf (getMeta (ProtoOf exUser) emptyHeap))) as E
    by (by vm_compute).
  split; [exact E|]. split.
  - exact (proj1 (getMeta_is_idempotent (ProtoOf exUser) emptyHeap)).
  - exact (proj2 (getMeta_is_idempotent (ProtoOf exUser) emptyHeap) _ _ _ E).
Defined.

(** [@Entity('users', { tableName: 'users', paranoid: true })] on a class
    whose record holds [tableName: 'people']. *)
Lemma Entity_stored_options_win_witness :
  getMeta (ProtoOf exUser) exHeapPeopleTable
  = Ok (Stored 1 0, view exUser exHeapPeopleTable) exHeapPeopleTable
  ∧ ∃ e', readMeta (Stored 1 0)
            (stateOf (Entity (NameStr "users") (Some exOtherTableOptions) exUser
                        exHeapPeopleTable)) = Some e'
    ∧ meta_name e' = "users"
    ∧ (∀ k, opt_rest (meta_options e') !! k
            = match opt_rest (meta_options (view exUser exHeapPeopleTable)) !! k with
              | Some v => Some v
              | None => opt_rest (suppliedOptions (NameStr "users") (Some exOtherTableOptions)) !! k
              end)
    ∧ opt_indexes (meta_options e')
      = match opt_indexes (meta_options (view exUser exHeapPeopleTable)) with
        | Absent => opt_indexes (suppliedOptions (NameStr "users") (Some exOtherTableOptions))
        | stored => stored
        end.
Proof.
  assert (getMeta (ProtoOf exUser) exHeapPeopleTable
          = Ok (Stored 1 0, view exUser exHeapPeopleTable) exHeapPeopleTable) as E
    by (by vm_compute).
  split; [exact E|].
  exact (Entity_stored_options_win (NameStr "users") (Some exOtherTableOptions) exUser
           exHeapPeopleTable _ _ _ E).
Defined.

(** [comments] is declared with the options object that [post] was
    declared with. *)
Lemma association_decorator_keeps_caller_options_witness :
  associationDecorator HAS_MANY (λ _, exComment) (Some 1%positive) (ProtoOf exUser)
    "comments" exHeapShared1 = Ok tt exHeapShared2
  ∧ (∃ e ea, storedMeta exUser exHeapShared2 = Some e
       ∧ assocGet "comments" (meta_associations e) = Some ea
       ∧ ea_association ea = 1%positive)
  ∧ derefOptions 1%positive exHeapShared2
    = set_as "comments" (derefOptions 1%positive exHeapShared1).
Proof.
  assert (associationDecorator HAS_MANY (λ _, exComment) (Some 1%positive) (ProtoOf exUser)
            "comments" exHeapShared1 = Ok tt exHeapShared2) as E
    by (by vm_compute).
  split; [exact E|].
  exact (association_decorator_keeps_caller_options HAS_MANY (λ _, exComment)
           (Some 1%positive) exUser "comments" exHeapShared1 exHeapShared2 E).
Defined.

(** [@Index()] on [email], on a class without metadata. *)
Lemma Index_without_name_makes_new_index_witness :
  indexHeapOk emptyHeap
  ∧ isNull (io_name (default emptyIIndexOptions None)) = true
  ∧ ∃ h', Index None (ProtoOf exUser) "email" emptyHeap = Ok tt h'
    ∧ indexesOf (meta_options (view exUser h')) h'
      = indexesOf (meta_options (view exUser emptyHeap)) emptyHeap ++ [nextLoc emptyHeap]
    ∧ indexObjs h' !! nextLoc emptyHeap
      = Some {| idx_name := Absent;
                idx_unique := cleanSlot (readSlot (io_unique (default emptyIIndexOptions None)));
                idx_fields := ["email"] |}
    ∧ (∀ l o, indexObjs emptyHeap !! l = Some o → indexObjs h' !! l = Some o).
Proof.
  split; [exact emptyHeap_indexHeapOk|]. split; [reflexivity|].
  exact (Index_without_name_makes_new_index None exUser "email" emptyHeap
           emptyHeap_indexHeapOk eq_refl).
Defined.

(** [lastName] is declared with [{ name: 'by_name', unique: true }], then
    [firstName] with [{ name: 'by_name' }]. *)
Lemma Index_same_name_repeats_reference_witness :
  findIndex "by_name" (indexesOf (meta_options (view exUser emptyHeap)) emptyHeap)
    (indexObjs emptyHeap) = None
  ∧ namesIndex "by_name" exByNameUnique = true
  ∧ Forall (λ s, namesIndex "by_name" s.1 = true) exByNameAgain
  ∧ ∃ h', decorateIndexes exUser ((exByNameUnique, "lastName") :: exByNameAgain) emptyHeap
          = Ok tt h'
    ∧ indexesOf (meta_options (view exUser h')) h'
      = indexesOf (meta_options (view exUser emptyHeap)) emptyHeap
        ++ replicate (S (length exByNameAgain)) (nextLoc emptyHeap)
    ∧ ∃ o, indexObjs h' !! nextLoc emptyHeap = Some o
           ∧ idx_name o = Has "by_name"
           ∧ idx_unique o
             = cleanSlot (readSlot (io_unique (default emptyIIndexOptions exByNameUnique))).
Proof.
  assert (Forall (λ s : option IIndexOptions * string, namesIndex "by_name" s.1 = true)
            exByNameAgain) as Hall.
  { unfold exByNameAgain. constructor; [reflexivity|constructor]. }
  split; [reflexivity|]. split; [reflexivity|]. split; [exact Hall|].
  exact (Index_same_name_repeats_reference exUser "by_name" exByNameUnique "lastName"
           exByNameAgain emptyHeap eq_refl eq_refl Hall).
Defined.

(** [User] and [Post], each with one column, registered together. *)
Lemma registerEntities_handle_carries_metadata_witness :
  NoDup (fname <$> [exUser; exPost])
  ∧ exUser ∈ [exUser; exPost]
  ∧ storedMeta exUser exHeapUserAndPost = Some (view exUser exHeapUserAndPost)
  ∧ let r := registerEntities strictEngine [exUser; exPost] (exHeapUserAndPost, noModels) in
    (∃ m, models (stateOf r).2 !! fname exUser = Some m
          ∧ model_name m = meta_name (view exUser exHeapUserAndPost)
          ∧ model_attributes m = meta_fields (view exUser exHeapUserAndPost)
          ∧ model_options m = meta_options (view exUser exHeapUserAndPost))
    ∧ (∀ ms, returned r = Some ms → ms = models (stateOf r).2).
Proof.
  assert (exUser ∈ [exUser; exPost]) as Hin by (by left).
  assert (storedMeta exUser exHeapUserAndPost = Some (view exUser exHeapUserAndPost)) as Hst
    by (by vm_compute).
  split; [exact exUser_exPost_names|]. split; [exact Hin|]. split; [exact Hst|].
  exact (registerEntities_handle_carries_metadata strictEngine [exUser; exPost] exUser
           (view exUser exHeapUserAndPost) exHeapUserAndPost noModels
           exUser_exPost_names Hin Hst).
Defined.


(** [User] and [Post] registered without any decoration. *)
Lemma registerEntities_undecorated_witness :
  Forall (λ c, findHolder (metaStores emptyHeap) (fid c :: fsupers c) = None) [exUser; exPost]
  ∧ ∃ q', registerEntities lenientEngine [exUser; exPost] (emptyHeap, noModels)
          = Ok (models q') (emptyHeap, q')
    ∧ models q' = foldl (λ m c, <[fname c := emptyModel c]> m) (models noModels) [exUser; exPost]
    ∧ calls q' = calls noModels ++ (CallDefine ∘ fname <$> [exUser; exPost]).
Proof.
  assert (Forall (λ c, findHolder (metaStores emptyHeap) (fid c :: fsupers c) = None)
            [exUser; exPost]) as Hall.
  { constructor; [reflexivity|]. constructor; [reflexivity|constructor]. }
  split; [exact Hall|].
  exact (registerEntities_undecorated lenientEngine [exUser; exPost] emptyHeap noModels Hall).
Defined.

Lemma exHeapUserHasPost_others c' :
  c' ∈ [exUser; exPost] → fname c' ≠ fname exUser →
  meta_associations (view c' exHeapUserHasPost) = [].
Proof.
  intros Hin Hne. apply elem_of_cons in Hin as [->|Hin]; [done|].
  apply list_elem_of_singleton in Hin as ->. by vm_compute.
Qed.

(** [User], which declares [post] with the target [Post], registered
    before and after [Post]. *)
Lemma registration_order_independent_witness :
  [exUser; exPost] ≡ₚ [exPost; exUser]
  ∧ meta_associations (view exUser exHeapUserHasPost) = [("post", exHasOnePost)]
  ∧ let r := registerEntities strictEngine [exUser; exPost] (exHeapUserHasPost, noModels) in
    let r' := registerEntities strictEngine [exPost; exUser] (exHeapUserHasPost, noModels) in
    isThrow r = isThrow r'
    ∧ returned r = returned r'
    ∧ models (stateOf r).2 = models (stateOf r').2.
Proof.
  assert ([exUser; exPost] ≡ₚ [exPost; exUser]) as Hp by apply perm_swap.
  assert (meta_associations (view exUser exHeapUserHasPost) = [("post", exHasOnePost)]) as Ha
    by (by vm_compute).
  assert (exUser ∈ [exUser; exPost]) as Hin by (by left).
  split; [exact Hp|]. split; [exact Ha|].
  exact (registration_order_independent strictEngine [exUser; exPost] [exPost; exUser]
           exUser "post" exHasOnePost exHeapUserHasPost noModels
           Hp exUser_exPost_names Hin exHeapUserHasPost_others Ha).
Defined.


(** Decorations starting from the heap without any metadata. *)
Lemma record_names_stay_distinct_witness :
  storesDistinct emptyHeap
  ∧ (∀ t, storesDistinct (stateOf (getMeta t emptyHeap)))
  ∧ (∀ d c key, storesDistinct (stateOf (decorate d (ProtoOf c) key emptyHeap)))
  ∧ (∀ name options c, (∀ s, name = NameStr s → s = fname c) →
       storesDistinct (stateOf (Entity name options c emptyHeap))).
Proof.
  split; [exact emptyHeap_storesDistinct|].
  exact (record_names_stay_distinct emptyHeap emptyHeap_storesDistinct).
Defined.

(** [class User { @Column(...) id }] with [@Entity()], registered with [Post]. *)
Lemma decorated_column_reaches_model_witness :
  NoDup (fname <$> [exUser; exPost])
  ∧ exUser ∈ [exUser; exPost]
  ∧ let h' := stateOf (Entity NameNone None exUser
                         (stateOf (Column exIdColumn (ProtoOf exUser) "id" emptyHeap))) in
    ∃ m, models (stateOf (registerEntities lenientEngine [exUser; exPost] (h', noModels))).2
           !! fname exUser = Some m
      ∧ model_attributes m !! "id" = Some exIdColumn
      ∧ isNull (opt_createdAt (model_options m)) = false
      ∧ isNull (opt_updatedAt (model_options m)) = false.
Proof.
  assert (exUser ∈ [exUser; exPost]) as Hin by (by left).
  split; [exact exUser_exPost_names|]. split; [exact Hin|].
  exact (decorated_column_reaches_model lenientEngine exIdColumn "id" None exUser
           [exUser; exPost] emptyHeap noModels exUser_exPost_names Hin).
Defined.

(** [class User { @Column(...) id }] with [@Entity('users')]. *)
Lemma renamed_entity_registers_without_columns_witness :
  storesDistinct exHeapUserColumn
  ∧ "users" ≠ fname exUser
  ∧ meta_fields (view exUser exHeapUserColumn) !! "id" = Some exIdColumn
  ∧ let h' := stateOf (Entity (NameStr "users") None exUser exHeapUserColumn) in
    ∃ m, models (stateOf (registerEntities lenientEngine [exUser; exPost] (h', noModels))).2
           !! fname exUser = Some m
      ∧ model_name m = fname exUser
      ∧ model_attributes m = ∅
      ∧ model_options m = emptyDefineOptions.
Proof.
  assert (storesDistinct exHeapUserColumn) as Hd.
  { exact (decorate_storesDistinct (DColumn exIdColumn) exUser "id" emptyHeap
             emptyHeap_storesDistinct). }
  assert ("users" ≠ fname exUser) as Hs by discriminate.
  assert (exUser ∈ [exUser; exPost]) as Hin by (by left).
  split; [exact Hd|]. split; [exact Hs|]. split; [by vm_compute|].
  exact (renamed_entity_registers_without_columns lenientEngine "users" None exUser
           [exUser; exPost] exHeapUserColumn noModels Hd Hs exUser_exPost_names Hin).
Defined.

